(** * OpenAstroTracker polar-alignment server: coordinate-error model,
      mount command protocol and alignment control loop.

    The development follows the Python sources module by module:
    [config.py], [pa_calculator.py], [mount_client.py] and [app.py].

    Numeric conventions.  Python floats that pass through [math.cos],
    [math.sqrt] and the wrap-around loops of [calculate_pa_error] are read
    as real numbers (no rounding, no overflow); the float literal [0.1] is
    the real [1/10] and [math.pi] is [PI]. *)

From Stdlib Require Import Reals Lra Lia ZArith QArith Qreals.
From Stdlib Require Import Bool List String Ascii.
From Equations Require Import Equations.
Import ListNotations.

(* ================================================================== *)
(** * config.py *)
(* ================================================================== *)

Module Config.

Open Scope R_scope.

Definition DEFAULT_EXPOSURE : R := 2.
Definition TARGET_ACCURACY : R := 60.
Definition MAX_ITERATIONS : nat := 20.
Definition SETTLE_TIME : R := 1.
Definition LATITUDE : R := 40.

End Config.

(* ================================================================== *)
(** * Python built-ins used by the sources *)
(* ================================================================== *)

(** The mount answers are decoded as ASCII ([decode('ascii',
    errors='ignore')]), so text is modelled as [string] over 8-bit
    characters.  [int()] and [float()] follow the grammar of the language
    reference restricted to ASCII; a float value is an exact rational, an
    infinity or a NaN (no rounding, no overflow). *)

Module Py.

Open Scope char_scope.
Open Scope string_scope.

(** Exceptions caught by [except Exception] are [None]. *)
Definition bind {A B : Type} (x : option A) (f : A -> option B) : option B :=
  match x with
  | Some a => f a
  | None => None
  end.

Declare Scope py_scope.
Delimit Scope py_scope with py.
Notation "x <- e ;; k" := (bind e (fun x => k))
  (at level 61, e at next level, right associativity) : py_scope.

Definition in_range (lo hi : nat) (c : ascii) : bool :=
  let n := nat_of_ascii c in (lo <=? n)%nat && (n <=? hi)%nat.

(** [str.isspace] on ASCII: TAB..CR, FS..US and the space. *)
Definition isspace (c : ascii) : bool := in_range 9 13 c || in_range 28 32 c.

Definition isdigit (c : ascii) : bool := in_range 48 57 c.

Fixpoint lstrip (s : string) : string :=
  match s with
  | EmptyString => EmptyString
  | String c s' => if isspace c then lstrip s' else s
  end.

Fixpoint rstrip (s : string) : string :=
  match s with
  | EmptyString => EmptyString
  | String c s' =>
      match rstrip s' with
      | EmptyString => if isspace c then EmptyString else String c EmptyString
      | r => String c r
      end
  end.

(** [str.strip()] *)
Definition strip (s : string) : string := rstrip (lstrip s).

(** [str.replace(old, new)] for a one-character [old]. *)
Fixpoint replace (old : ascii) (new : string) (s : string) : string :=
  match s with
  | EmptyString => EmptyString
  | String c s' =>
      if Ascii.eqb c old then new ++ replace old new s'
      else String c (replace old new s')
  end.

(** [str.split(sep)] for a one-character [sep]: never an empty list. *)
Fixpoint split (sep : ascii) (s : string) : list string :=
  match s with
  | EmptyString => [EmptyString]
  | String c s' =>
      if Ascii.eqb c sep then EmptyString :: split sep s'
      else match split sep s' with
           | h :: t => String c h :: t
           | [] => [String c EmptyString]
           end
  end.

(** [sub in s] *)
Fixpoint contains (sub s : string) : bool :=
  String.prefix sub s ||
  match s with
  | EmptyString => false
  | String _ s' => contains sub s'
  end.

Definition lower_char (c : ascii) : ascii :=
  if in_range 65 90 c then ascii_of_nat (nat_of_ascii c + 32) else c.

Definition upper_char (c : ascii) : ascii :=
  if in_range 97 122 c then ascii_of_nat (nat_of_ascii c - 32) else c.

Fixpoint map_string (f : ascii -> ascii) (s : string) : string :=
  match s with
  | EmptyString => EmptyString
  | String c s' => String (f c) (map_string f s')
  end.

(** [str.lower()], [str.upper()] *)
Definition lower : string -> string := map_string lower_char.
Definition upper : string -> string := map_string upper_char.

Fixpoint all_chars (p : ascii -> bool) (s : string) : bool :=
  match s with
  | EmptyString => true
  | String c s' => p c && all_chars p s'
  end.

Fixpoint has_char (c : ascii) (s : string) : bool :=
  match s with
  | EmptyString => false
  | String d s' => Ascii.eqb d c || has_char c s'
  end.

Definition after (p : ascii -> bool) (prev : option ascii) : bool :=
  match prev with
  | Some c => p c
  | None => false
  end.

Definition is_underscore (c : ascii) : bool := Ascii.eqb c "_".

(** Digit groups may be separated by single underscores: an underscore
    must follow a digit and precede a digit.  [prev] is the previous
    character; the result is the text without its underscores. *)
Fixpoint drop_underscores (prev : option ascii) (s : string) : option string :=
  match s with
  | EmptyString =>
      if after is_underscore prev then None else Some EmptyString
  | String c s' =>
      if is_underscore c then
        if after isdigit prev then drop_underscores (Some c) s' else None
      else if after is_underscore prev && negb (isdigit c) then None
      else option_map (String c) (drop_underscores (Some c) s')
  end.

Definition digit_value (c : ascii) : Z := Z.of_nat (nat_of_ascii c) - 48.

Fixpoint digits_value (acc : Z) (s : string) : Z :=
  match s with
  | EmptyString => acc
  | String c s' => digits_value (10 * acc + digit_value c) s'
  end.

Definition is_digits (s : string) : bool :=
  negb (String.eqb s EmptyString) && all_chars isdigit s.

(** An optional leading sign: [(negative, rest)]. *)
Definition split_sign (s : string) : bool * string :=
  match s with
  | String c r =>
      if Ascii.eqb c "-" then (true, r)
      else if Ascii.eqb c "+" then (false, r)
      else (false, s)
  | EmptyString => (false, s)
  end.

(** [int(s)] in base 10; [None] is [ValueError]. *)
Definition int (s : string) : option Z :=
  let s := strip s in
  let '(negative, body) := split_sign s in
  match drop_underscores None body with
  | Some ds =>
      if is_digits ds then
        Some (if negative then - digits_value 0 ds else digits_value 0 ds)%Z
      else None
  | None => None
  end.

(** Float values. *)
Inductive float : Type :=
| Fin (q : Q)
| Inf (negative : bool)
| NaN.

Definition of_int (z : Z) : float := Fin (inject_Z z).

Definition fneg (x : float) : float :=
  match x with
  | Fin q => Fin (- q)
  | Inf s => Inf (negb s)
  | NaN => NaN
  end.

Definition qneg (q : Q) : bool :=
  match Qcompare q 0 with Lt => true | _ => false end.

Definition fadd (x y : float) : float :=
  match x, y with
  | NaN, _ | _, NaN => NaN
  | Inf s, Inf t => if Bool.eqb s t then Inf s else NaN
  | Inf s, Fin _ | Fin _, Inf s => Inf s
  | Fin a, Fin b => Fin (a + b)
  end.

Definition fmul (x y : float) : float :=
  match x, y with
  | NaN, _ | _, NaN => NaN
  | Inf s, Inf t => Inf (xorb s t)
  | Inf s, Fin q | Fin q, Inf s =>
      if Qeq_bool q 0 then NaN else Inf (xorb s (qneg q))
  | Fin a, Fin b => Fin (a * b)
  end.

(** Division by a non-zero float literal. *)
Definition fdiv (x : float) (d : Q) : float := fmul x (Fin (/ d)).

(** Python [==] on floats. *)
Definition feq (x y : float) : bool :=
  match x, y with
  | Fin a, Fin b => Qeq_bool a b
  | Inf s, Inf t => Bool.eqb s t
  | _, _ => false
  end.

Fixpoint span_digits (s : string) : string * string :=
  match s with
  | EmptyString => (EmptyString, EmptyString)
  | String c s' =>
      if isdigit c then
        let '(ds, rest) := span_digits s' in (String c ds, rest)
      else (EmptyString, s)
  end.

(** [digits[.digits][(e|E)[sign]digits]] with at least one mantissa
    digit; the whole text must be consumed. *)
Definition parse_decimal (s : string) : option Q :=
  let '(ip, r1) := span_digits s in
  let '(fp, r2) :=
    match r1 with
    | String c r =>
        if Ascii.eqb c "." then span_digits r else (EmptyString, r1)
    | EmptyString => (EmptyString, r1)
    end in
  if String.eqb (ip ++ fp) EmptyString then None
  else
    let mantissa := digits_value 0 (ip ++ fp) in
    let scale := (- Z.of_nat (String.length fp))%Z in
    match r2 with
    | EmptyString => Some (inject_Z mantissa * Qpower 10 scale)
    | String c r3 =>
        if Ascii.eqb c "e" || Ascii.eqb c "E" then
          let '(negative, ed) := split_sign r3 in
          if is_digits ed then
            let e := digits_value 0 ed in
            let e := (if negative then - e else e)%Z in
            Some (inject_Z mantissa * Qpower 10 (scale + e))
          else None
        else None
    end.

(** [float(s)]; [None] is [ValueError]. *)
Definition float_of_string (s : string) : option float :=
  let s := strip s in
  match drop_underscores None s with
  | None => None
  | Some s =>
      let '(negative, body) := split_sign s in
      let word := lower body in
      if String.eqb word "inf" || String.eqb word "infinity" then
        Some (Inf negative)
      else if String.eqb word "nan" then Some NaN
      else
        match parse_decimal body with
        | Some q => Some (Fin (if negative then - q else q))
        | None => None
        end
  end.

End Py.

(* ================================================================== *)
(** * pa_calculator.py: the error computation *)
(* ================================================================== *)

Module PaCalculator.

Open Scope R_scope.

(** [@dataclass class PAError] *)
Record PAError : Type := mkPAError {
  az_error : R;      (* arcminutes *)
  alt_error : R;     (* arcminutes *)
  total_error : R    (* arcseconds *)
}.

(** [PAError.is_aligned(self, target_accuracy=None)] *)
Definition is_aligned (self : PAError) (target_accuracy : option R) : bool :=
  let target_accuracy :=
    match target_accuracy with
    | None => Config.TARGET_ACCURACY
    | Some t => t
    end in
  if Rlt_dec (total_error self) target_accuracy then true else false.

(** [math.radians] and [math.degrees] *)
Definition radians (x : R) : R := x * (PI / 180).
Definition degrees (x : R) : R := x * (180 / PI).

(** Number of full turns that [d] lies above [PI] (resp. below [-PI]):
    the variants of the two wrap-around loops. *)
Definition turns_above (d : R) : nat := Z.to_nat (up ((d - PI) / (2 * PI))).
Definition turns_below (d : R) : nat := Z.to_nat (up ((- PI - d) / (2 * PI))).

Lemma up_pred_lt (x : R) : 0 < x -> (Z.to_nat (up (x - 1)) < Z.to_nat (up x))%nat.
Proof.
  intros Hx.
  destruct (archimed x) as [Hx1 _].
  destruct (archimed (x - 1)) as [_ Hy2].
  assert (Hpos : (0 < up x)%Z) by (apply lt_IZR; lra).
  assert (Hlt : (up (x - 1) < up x)%Z) by (apply lt_IZR; lra).
  lia.
Qed.

(** [while delta_ra > math.pi: delta_ra -= 2 * math.pi] *)
Equations? wrap_down (delta_ra : R) : R by wf (turns_above delta_ra) lt :=
  wrap_down delta_ra with Rgt_dec delta_ra PI := {
    | left _ => wrap_down (delta_ra - 2 * PI)
    | right _ => delta_ra }.
Proof.
  unfold turns_above.
  pose proof PI_RGT_0 as HPI.
  replace ((delta_ra - 2 * PI - PI) / (2 * PI))
    with ((delta_ra - PI) / (2 * PI) - 1) by (field; lra).
  apply up_pred_lt.
  apply Rdiv_lt_0_compat; lra.
Qed.

(** [while delta_ra < -math.pi: delta_ra += 2 * math.pi] *)
Equations? wrap_up (delta_ra : R) : R by wf (turns_below delta_ra) lt :=
  wrap_up delta_ra with Rlt_dec delta_ra (- PI) := {
    | left _ => wrap_up (delta_ra + 2 * PI)
    | right _ => delta_ra }.
Proof.
  unfold turns_below.
  pose proof PI_RGT_0 as HPI.
  replace ((- PI - (delta_ra + 2 * PI)) / (2 * PI))
    with ((- PI - delta_ra) / (2 * PI) - 1) by (field; lra).
  apply up_pred_lt.
  apply Rdiv_lt_0_compat; lra.
Qed.

(** Lines 95-102 of [calculate_pa_error]: the right-ascension difference
    in radians after both loops. *)
Definition wrapped_delta_ra (solved_ra mount_ra : R) : R :=
  let solved_ra_rad := radians solved_ra in
  let mount_ra_rad := radians mount_ra in
  let delta_ra := solved_ra_rad - mount_ra_rad in
  let delta_ra := wrap_down delta_ra in
  let delta_ra := wrap_up delta_ra in
  delta_ra.

(** [calculate_pa_error(solved_ra, solved_dec, mount_ra, mount_dec,
    latitude=None)] *)
Definition calculate_pa_error
    (solved_ra solved_dec mount_ra mount_dec : R) (latitude : option R)
    : PAError :=
  let latitude :=
    match latitude with
    | None => Config.LATITUDE
    | Some l => l
    end in
  let solved_dec_rad := radians solved_dec in
  let mount_dec_rad := radians mount_dec in
  let lat_rad := radians latitude in
  let delta_ra := wrapped_delta_ra solved_ra mount_ra in
  let delta_dec := solved_dec_rad - mount_dec_rad in
  let delta_ra_arcmin := degrees delta_ra * 60 in
  let delta_dec_arcmin := degrees delta_dec * 60 in
  let cos_dec := cos mount_dec_rad in
  let cos_dec := if Rlt_dec cos_dec (1 / 10) then 1 / 10 else cos_dec in
  let az_error := delta_ra_arcmin / cos_dec in
  let alt_error := delta_dec_arcmin in
  let sin_lat := sin lat_rad in
  let cos_lat := cos lat_rad in
  let total_error_arcmin := sqrt (az_error ^ 2 + alt_error ^ 2) in
  let total_error_arcsec := total_error_arcmin * 60 in
  {| az_error := az_error;
     alt_error := alt_error;
     total_error := total_error_arcsec |}.

(** [calculate_correction(pa_error, invert_az=True)] *)
Definition calculate_correction (pa_error : PAError) (invert_az : bool)
    : R * R :=
  let az_correction := - az_error pa_error in
  let alt_correction := alt_error pa_error in
  let az_correction := if invert_az then - az_correction else az_correction in
  (az_correction, alt_correction).


(** The loop of [estimate_iterations]:
    [while error > target_accuracy and iterations < 20]; [left] is
    [20 - iterations].  The literal [0.6] is the real [6/10]. *)
Fixpoint estimate_loop (target_accuracy : R) (left : nat) (error : R)
    (iterations : nat) : nat :=
  if Rgt_dec error target_accuracy then
    match left with
    | O => iterations
    | S left' =>
        let reduction_factor := 6 / 10 in
        estimate_loop target_accuracy left' (error * reduction_factor)
          (S iterations)
    end
  else iterations.

(** [estimate_iterations(current_error, target_accuracy=None)] *)
Definition estimate_iterations (current_error : R) (target_accuracy : option R)
    : nat :=
  let target_accuracy :=
    match target_accuracy with
    | None => Config.TARGET_ACCURACY
    | Some t => t
    end in
  if Rle_dec current_error target_accuracy then O
  else estimate_loop target_accuracy 20 current_error 0.

(** ** Coordinate text *)

Import Py.
Open Scope py_scope.
Open Scope string_scope.

(** [hours + minutes / 60.0 + seconds / 3600.0], shared by both parsers. *)
Definition sexagesimal (whole minutes : Z) (seconds : Py.float) : Py.float :=
  fadd (fadd (of_int whole) (fdiv (of_int minutes) 60)) (fdiv seconds 3600).

(** [parse_ra_string(ra_str)].  A [None] argument raises
    [AttributeError] at [ra_str.strip()], which the handler turns into
    [None]. *)
Definition parse_ra_string (ra_str : option string) : option Py.float :=
  ra_str <- ra_str ;;
  let ra_str := strip ra_str in
  let parts := split ":" ra_str in
  if (List.length parts =? 3)%nat then
    hours <- int (nth 0 parts EmptyString) ;;
    minutes <- int (nth 1 parts EmptyString) ;;
    seconds <- float_of_string (nth 2 parts EmptyString) ;;
    let ra_degrees := fmul (sexagesimal hours minutes seconds) (Fin 15) in
    Some ra_degrees
  else
    ra_hours <- float_of_string ra_str ;;
    Some (fmul ra_hours (Fin 15)).

(** The three [replace] calls of [parse_dec_string]. *)
Definition normalize_separators (dec_str : string) : string :=
  replace "034" EmptyString (replace "'" ":" (replace "*" ":" dec_str)).

(** Lines 207-213 of [parse_dec_string]: the sign and the text after
    it.  [dec_str[0]] raises [IndexError] on the empty text. *)
Definition take_sign (dec_str : string) : option (Z * string) :=
  match dec_str with
  | EmptyString => None
  | String first rest =>
      if Ascii.eqb first "-" then Some ((-1)%Z, rest)
      else if Ascii.eqb first "+" then Some (1%Z, rest)
      else Some (1%Z, dec_str)
  end.

(** [parse_dec_string(dec_str)] *)
Definition parse_dec_string (dec_str : option string) : option Py.float :=
  dec_str <- dec_str ;;
  let dec_str := strip dec_str in
  signed <- take_sign dec_str ;;
  let '(sign, dec_str) := signed in
  let dec_str := normalize_separators dec_str in
  let parts := split ":" dec_str in
  if (2 <=? List.length parts)%nat then
    degrees <- int (nth 0 parts EmptyString) ;;
    minutes <- int (nth 1 parts EmptyString) ;;
    seconds <- (if (2 <? List.length parts)%nat
                then float_of_string (nth 2 parts EmptyString)
                else Some (Fin 0)) ;;
    let dec_degrees := fmul (of_int sign) (sexagesimal degrees minutes seconds) in
    Some dec_degrees
  else
    value <- float_of_string dec_str ;;
    Some (fmul value (of_int sign)).

End PaCalculator.

(* ================================================================== *)
(** * mount_client.py *)
(* ================================================================== *)

Module MountClient.

Import Py.
Open Scope string_scope.

Inductive Mode : Type := indi | serial.

(** What the serial line does with one command. *)
Inductive reply : Type :=
| Refuses                       (* [reset_input_buffer]/[write] raises *)
| Breaks                        (* the write succeeds, a read raises *)
| Sends (incoming : string).    (* bytes arriving within the 2 s window *)

(** A [serial.Serial] object: whether it is open and what was written
    to it, oldest command first. *)
Record Serial : Type := mkSerial {
  port_name : string;
  is_open : bool;
  written : list string
}.

Record MountClient : Type := mkMountClient {
  mode : option Mode;
  indi_client : bool;             (* an [IndiClient] object is held *)
  serial_conn : option Serial;
  telescope_name : string;
  _connected : bool
}.

(** [MountClient.__init__] *)
Definition __init__ : MountClient :=
  {| mode := None; indi_client := false; serial_conn := None;
     telescope_name := "LX200 GPS"; _connected := false |}.

Definition connected (self : MountClient) : bool := _connected self.

Definition set_serial_conn (self : MountClient) (c : option Serial) : MountClient :=
  {| mode := mode self; indi_client := indi_client self; serial_conn := c;
     telescope_name := telescope_name self; _connected := _connected self |}.

(** [Serial.write(command)] *)
Definition write (conn : Serial) (command : string) : Serial :=
  {| port_name := port_name conn; is_open := is_open conn;
     written := written conn ++ [command] |}.

(** [Serial.close()] *)
Definition close (conn : Serial) : Serial :=
  {| port_name := port_name conn; is_open := false; written := written conn |}.

(** [self.serial_conn.close()] *)
Definition close_serial_conn (self : MountClient) : MountClient :=
  set_serial_conn self (option_map close (serial_conn self)).

Definition is_ascii (b : ascii) : bool := (nat_of_ascii b <? 128)%nat.

(** The read loop of [_serial_command]: bytes are decoded one at a
    time with [errors='ignore'] and accumulated up to the first [#];
    when the bytes run out the 2 s window has elapsed. *)
Fixpoint read_response (incoming : string) : string :=
  match incoming with
  | EmptyString => EmptyString
  | String b rest =>
      if is_ascii b then
        if Ascii.eqb b "#" then EmptyString
        else String b (read_response rest)
      else read_response rest
  end.

(** [bool(s)] for a string. *)
Definition truthy (s : string) : bool := negb (String.eqb s EmptyString).

Section Hardware.

(** The machine the client runs on. *)
Variable SERIAL_AVAILABLE : bool.
Variable INDI_AVAILABLE : bool.
(** [serial.Serial(port=...)] returns rather than raises. *)
Variable open_serial : string -> bool.
(** Behaviour of the serial line for the latest of the commands
    written so far. *)
Variable line : list string -> reply.
(** Outcome of the INDI server and device lookup. *)
Variable indi_server : bool.
Variable indi_device : bool.
(** Python floats handed to the move commands and their [+.2f]
    rendering. *)
Variable num : Type.
Variable format_signed_2f : num -> string.

(** [_serial_command(command, expect_response=True)].  Every
    exception is caught and becomes [None]. *)
Definition _serial_command (self : MountClient) (command : string)
    (expect_response : bool) : MountClient * option string :=
  match serial_conn self with
  | None => (self, None)
  | Some conn =>
      if negb (is_open conn) then (self, None)
      else
        match line (written conn ++ [command]) with
        | Refuses => (self, None)
        | Breaks =>
            (set_serial_conn self (Some (write conn command)),
             if expect_response then None else Some EmptyString)
        | Sends incoming =>
            (set_serial_conn self (Some (write conn command)),
             if expect_response then Some (read_response incoming)
             else Some EmptyString)
        end
  end.

(** [_indi_command]: pass-through is not implemented. *)
Definition _indi_command (self : MountClient) (command : string)
    (expect_response : bool) : MountClient * option string :=
  (self, None).

(** [_connect_serial(port)] *)
Definition _connect_serial (self : MountClient) (port : string)
    : MountClient * bool :=
  if negb SERIAL_AVAILABLE then (self, false)
  else if negb (open_serial port) then
    (* [serial.Serial] raised: the handler closes whatever
       connection object the client still holds. *)
    (close_serial_conn self, false)
  else
    let self :=
      set_serial_conn self
        (Some {| port_name := port; is_open := true; written := [] |}) in
    let '(self, response) := _serial_command self ":GVP#" true in
    let ok :=
      match response with
      | Some r => truthy r && contains "OpenAstro" r
      | None => false
      end in
    if ok then
      ({| mode := Some serial; indi_client := indi_client self;
          serial_conn := serial_conn self;
          telescope_name := telescope_name self; _connected := true |},
       true)
    else (close_serial_conn self, false).

(** [_connect_indi()] *)
Definition _connect_indi (self : MountClient) : MountClient * bool :=
  if negb INDI_AVAILABLE then (self, false)
  else
    let self :=
      {| mode := mode self; indi_client := true;
         serial_conn := serial_conn self;
         telescope_name := telescope_name self;
         _connected := _connected self |} in
    if negb indi_server then (self, false)
    else if negb indi_device then (self, false)
    else
      ({| mode := Some indi; indi_client := true;
          serial_conn := serial_conn self;
          telescope_name := telescope_name self; _connected := true |},
       true).

(** [connect(mode='serial', serial_port='/dev/ttyACM0')] *)
Definition connect (self : MountClient) (mode : string) (serial_port : string)
    : MountClient * bool :=
  if _connected self then (self, true)
  else if String.eqb mode "indi" then _connect_indi self
  else if String.eqb mode "serial" then _connect_serial self serial_port
  else (self, false).

(** [disconnect()] *)
Definition disconnect (self : MountClient) : MountClient :=
  let self :=
    match mode self with
    | Some indi =>
        if indi_client self then
          {| mode := mode self; indi_client := false;
             serial_conn := serial_conn self;
             telescope_name := telescope_name self;
             _connected := _connected self |}
        else self
    | Some serial => set_serial_conn self None
    | None => self
    end in
  {| mode := None; indi_client := indi_client self;
     serial_conn := serial_conn self;
     telescope_name := telescope_name self; _connected := false |}.

(** [send_command(command, expect_response=True)]; the lock is held
    around the transport call. *)
Definition send_command (self : MountClient) (command : string)
    (expect_response : bool) : MountClient * option string :=
  if negb (_connected self) then (self, None)
  else
    match mode self with
    | Some serial => _serial_command self command expect_response
    | Some indi => _indi_command self command expect_response
    | None => (self, None)
    end.

Definition get_position (self : MountClient)
    : MountClient * (option string * option string) :=
  let '(self, ra) := send_command self ":GR#" true in
  let '(self, dec) := send_command self ":GD#" true in
  (self, (ra, dec)).

Definition get_status (self : MountClient) : MountClient * option string :=
  send_command self ":GX#" true.

Definition is_one (response : option string) : bool :=
  match response with
  | Some r => String.eqb r "1"
  | None => false
  end.

Definition is_slewing (self : MountClient) : MountClient * bool :=
  let '(self, response) := send_command self ":GIS#" true in
  (self, is_one response).

Definition is_tracking (self : MountClient) : MountClient * bool :=
  let '(self, response) := send_command self ":GIT#" true in
  (self, is_one response).

(** [motion[i] != '-'] *)
Definition flag_set (motion : string) (i : nat) : bool :=
  match String.get i motion with
  | Some c => negb (Ascii.eqb c "-")
  | None => false
  end.

Definition is_adjusting (self : MountClient) : MountClient * bool :=
  let '(self, status) := get_status self in
  (self,
   match status with
   | Some status =>
       if truthy status then
         let parts := split "," status in
         if (2 <=? List.length parts)%nat then
           let motion := nth 1 parts EmptyString in
           if (5 <=? String.length motion)%nat then
             let az_moving := flag_set motion 3 in
             let alt_moving := flag_set motion 4 in
             az_moving || alt_moving
           else false
         else false
       else false
   | None => false
   end).

Definition is_compass (direction : string) : bool :=
  String.eqb direction "n" || String.eqb direction "s" ||
  String.eqb direction "e" || String.eqb direction "w".

Definition start_slew (self : MountClient) (direction : string) : MountClient :=
  let direction := lower direction in
  if is_compass direction then
    fst (send_command self (":M" ++ direction ++ "#") false)
  else self.

Definition stop_slew (self : MountClient) (direction : string) : MountClient :=
  let direction := lower direction in
  if String.eqb direction "a" then fst (send_command self ":Q#" false)
  else if is_compass direction then
    fst (send_command self (":Q" ++ direction ++ "#") false)
  else self.

Definition set_slew_rate (self : MountClient) (rate : string) : MountClient :=
  let rate := upper rate in
  if String.eqb rate "S" || String.eqb rate "M" ||
     String.eqb rate "C" || String.eqb rate "G"
  then fst (send_command self (":R" ++ rate ++ "#") false)
  else self.

Definition move_azimuth (self : MountClient) (arcminutes : num) : MountClient :=
  let cmd := ":MAZ" ++ format_signed_2f arcminutes ++ "#" in
  fst (send_command self cmd false).

Definition move_altitude (self : MountClient) (arcminutes : num) : MountClient :=
  let cmd := ":MAL" ++ format_signed_2f arcminutes ++ "#" in
  fst (send_command self cmd false).

Definition set_tracking (self : MountClient) (enabled : bool) : MountClient :=
  let cmd := if enabled then ":MT1#" else ":MT0#" in
  fst (send_command self cmd true).

Definition get_az_alt_position (self : MountClient)
    : MountClient * (option Z * option Z) :=
  let '(self, response) := send_command self ":XGAA#" true in
  (self,
   match response with
   | Some response =>
       if truthy response then
         let parts := split "|" response in
         if (2 <=? List.length parts)%nat then
           match int (nth 0 parts EmptyString), int (nth 1 parts EmptyString) with
           | Some az, Some alt => (Some az, Some alt)
           | _, _ => (None, None)
           end
         else (None, None)
       else (None, None)
   | None => (None, None)
   end).

Definition home_az_alt (self : MountClient) : MountClient :=
  fst (send_command self ":MAAH#" false).

End Hardware.

End MountClient.

(* ================================================================== *)
(** * app.py *)
(* ================================================================== *)

Module App.

Import PaCalculator.
Open Scope R_scope.

(** [plate_solver.SolveResult] *)
Record SolveResult : Type := mkSolveResult {
  ra : R;
  dec : R;
  rotation : R;
  pixel_scale : R;
  fov_width : R;
  fov_height : R;
  solver : string
}.

(** A [threading.Thread(target=auto_align_loop, args=(target_accuracy,))]. *)
Record Thread : Type := mkThread { thread_target_accuracy : R }.

(** The module globals, and the workers on which [start()] was called. *)
Record Globals : Type := mkGlobals {
  alignment_running : bool;
  alignment_thread : option Thread;
  last_pa_error : option PAError;
  last_solve_result : option SolveResult;
  started : list Thread
}.

Inductive response : Type :=
| ok (message : string)               (* 200, [success: True] *)
| bad_request (error : string)        (* 400 *)
| unhandled.                          (* an exception escapes the view *)

(** The [target_accuracy] entry of the request body. *)
Inductive field : Type :=
| absent
| number (x : R)
| not_a_number.

(** [api_auto_align_start()] *)
Definition api_auto_align_start (data : field) (g : Globals)
    : Globals * response :=
  if alignment_running g then (g, bad_request "Alignment already running")
  else
    match
      match data with
      | absent => Some Config.TARGET_ACCURACY
      | number x => Some x
      | not_a_number => None
      end
    with
    | None => (g, unhandled)
    | Some target_accuracy =>
        let t := {| thread_target_accuracy := target_accuracy |} in
        ({| alignment_running := true;
            alignment_thread := Some t;
            last_pa_error := last_pa_error g;
            last_solve_result := last_solve_result g;
            started := started g ++ [t] |},
         ok "Auto-align started")
    end.

(** [api_auto_align_stop()] *)
Definition api_auto_align_stop (g : Globals) : Globals * response :=
  ({| alignment_running := false;
      alignment_thread := alignment_thread g;
      last_pa_error := last_pa_error g;
      last_solve_result := last_solve_result g;
      started := started g |},
   ok "Auto-align stopped").

(** ** The alignment loop *)

Inductive level : Type := info | warning | error | success.

(** The status messages of [auto_align_loop], with the values they
    interpolate. *)
Inductive message : Type :=
| AutoAlignStarted
| Capturing (iteration : nat)
| CaptureFailed
| Solving (iteration : nat)
| PlateSolveFailed
| CannotReadMountPosition
| ErrorIs (iteration : nat) (pa_error : PAError)
| Aligned (total_error : R)
| ApplyingCorrection (az_correction alt_correction : R)
| MaxIterationsReached (max_iterations : nat)
| AutoAlignFinished.

(** What the worker does, in order. *)
Inductive action : Type :=
| EmitStatus (m : message) (l : level)
| Sleep (seconds : R)
| CameraCapture (exposure : R)
| SolverSolve (filepath : string)
| MountGetPosition
| MountMoveAzimuth (arcminutes : R)
| MountMoveAltitude (arcminutes : R)
| MountIsAdjusting.

(** The collaborators, indexed by the iteration number they are called
    in, and the value of the global [alignment_running] as the [while]
    test reads it (other threads write it). *)
Record World : Type := mkWorld {
  running_at : nat -> bool;
  capture : nat -> option string;
  solve : nat -> string -> option SolveResult;
  get_position : nat -> option string * option string;
  is_adjusting : nat -> nat -> bool
}.

(** The worker's state: its local [iteration], the globals it writes
    and what it has done so far. *)
Record Loop : Type := mkLoop {
  iteration : nat;
  loop_last_pa_error : option PAError;
  loop_last_solve_result : option SolveResult;
  trace : list action
}.

Inductive control : Type :=
| Continue     (* back to the [while] test *)
| Break        (* [break] *)
| NonFinite.   (* the mount text parsed to an infinity or a NaN *)

Definition do (a : list action) (st : Loop) : Loop :=
  {| iteration := iteration st;
     loop_last_pa_error := loop_last_pa_error st;
     loop_last_solve_result := loop_last_solve_result st;
     trace := trace st ++ a |}.

Definition emit_status (m : message) (l : level) : Loop -> Loop :=
  do [EmitStatus m l].

(** [not filepath] *)
Definition no_file (filepath : option string) : bool :=
  match filepath with
  | None => true
  | Some p => String.eqb p EmptyString
  end.

Definition to_R (x : Py.float) : option R :=
  match x with
  | Py.Fin q => Some (Q2R q)
  | _ => None
  end.

(** Step 7: [while mount.is_adjusting() and wait_count < 30]; [left]
    is [30 - wait_count]. *)
Fixpoint wait_for_movement (adjusting : nat -> bool) (left wait_count : nat)
    : list action :=
  MountIsAdjusting ::
  (if adjusting wait_count then
     match left with
     | O => []
     | S left' =>
         Sleep (1 / 2) :: wait_for_movement adjusting left' (S wait_count)
     end
   else []).

(** One pass through the body of the [while] loop. *)
Definition loop_body (w : World) (target_accuracy : R) (st : Loop)
    : Loop * control :=
  let iteration := S (iteration st) in
  let st :=
    {| iteration := iteration;
       loop_last_pa_error := loop_last_pa_error st;
       loop_last_solve_result := loop_last_solve_result st;
       trace := trace st |} in
  let st := emit_status (Capturing iteration) info st in
  (* 1. Capture image *)
  let st := do [CameraCapture Config.DEFAULT_EXPOSURE] st in
  let filepath := capture w iteration in
  if no_file filepath then
    let st := emit_status CaptureFailed error st in
    let st := do [Sleep 2] st in
    (st, Continue)
  else
    let filepath := match filepath with Some p => p | None => EmptyString end in
    let st := emit_status (Solving iteration) info st in
    (* 2. Plate solve *)
    let st := do [SolverSolve filepath] st in
    match solve w iteration filepath with
    | None =>
        let st := emit_status PlateSolveFailed warning st in
        let st := do [Sleep 2] st in
        (st, Continue)
    | Some result =>
        let st :=
          {| iteration := iteration;
             loop_last_pa_error := loop_last_pa_error st;
             loop_last_solve_result := Some result;
             trace := trace st |} in
        (* 3. Get mount position *)
        let st := do [MountGetPosition] st in
        let '(ra_str, dec_str) := get_position w iteration in
        let mount_ra := parse_ra_string ra_str in
        let mount_dec := parse_dec_string dec_str in
        match mount_ra, mount_dec with
        | Some mount_ra, Some mount_dec =>
            match to_R mount_ra, to_R mount_dec with
            | Some mount_ra, Some mount_dec =>
                (* 4. Calculate PA error *)
                let pa_error :=
                  calculate_pa_error (ra result) (dec result)
                    mount_ra mount_dec None in
                let st :=
                  {| iteration := iteration;
                     loop_last_pa_error := Some pa_error;
                     loop_last_solve_result := loop_last_solve_result st;
                     trace := trace st |} in
                let st := emit_status (ErrorIs iteration pa_error) info st in
                (* 5. Check if aligned *)
                if Rlt_dec (total_error pa_error) target_accuracy then
                  let st :=
                    emit_status (Aligned (total_error pa_error)) success st in
                  (st, Break)
                else
                  (* 6. Apply correction *)
                  let '(az_correction, alt_correction) :=
                    calculate_correction pa_error true in
                  let st :=
                    emit_status
                      (ApplyingCorrection az_correction alt_correction)
                      info st in
                  let st := do [MountMoveAzimuth az_correction] st in
                  let st := do [MountMoveAltitude alt_correction] st in
                  (* 7. Wait for movement to complete *)
                  let st := do [Sleep (1 / 2)] st in
                  let st :=
                    do (wait_for_movement (is_adjusting w iteration) 30 0) st in
                  (* 8. Settle time *)
                  let st := do [Sleep Config.SETTLE_TIME] st in
                  (st, Continue)
            | _, _ => (st, NonFinite)
            end
        | _, _ =>
            let st := emit_status CannotReadMountPosition error st in
            let st := do [Sleep 2] st in
            (st, Continue)
        end
    end.

(** [while alignment_running and iteration < max_iterations].  Every
    pass increments [iteration], so [budget = max_iterations - iteration]
    passes are all the loop can make. *)
Fixpoint while_loop (w : World) (target_accuracy : R) (max_iterations : nat)
    (budget : nat) (st : Loop) : Loop * control :=
  if running_at w (iteration st) && (iteration st <? max_iterations)%nat then
    match budget with
    | O => (st, Continue)
    | S budget' =>
        let '(st', c) := loop_body w target_accuracy st in
        match c with
        | Continue => while_loop w target_accuracy max_iterations budget' st'
        | _ => (st', c)
        end
    end
  else (st, Continue).

(** [auto_align_loop(target_accuracy)], started with the globals [g].
    The result is the globals as the worker leaves them and the
    worker's final state; [None] when the run left the real-number
    reading of the error computation. *)
Definition auto_align_loop (w : World) (target_accuracy : R) (g : Globals)
    : option (Globals * Loop) :=
  let st :=
    {| iteration := 0;
       loop_last_pa_error := last_pa_error g;
       loop_last_solve_result := last_solve_result g;
       trace := [] |} in
  let max_iterations := Config.MAX_ITERATIONS in
  let st := emit_status AutoAlignStarted info st in
  let '(st, c) := while_loop w target_accuracy max_iterations max_iterations st in
  match c with
  | NonFinite => None
  | _ =>
      let st :=
        if (max_iterations <=? iteration st)%nat
        then emit_status (MaxIterationsReached max_iterations) warning st
        else st in
      let st := emit_status AutoAlignFinished info st in
      Some ({| alignment_running := false;
               alignment_thread := alignment_thread g;
               last_pa_error := loop_last_pa_error st;
               last_solve_result := loop_last_solve_result st;
               started := started g |},
            st)
  end.

End App.

(* ================================================================== *)
(** * Properties of the error computation *)
(* ================================================================== *)

Section ErrorModel.

Import PaCalculator.
Open Scope R_scope.

Lemma wrap_down_le (d : R) : d <= PI -> wrap_down d = d.
Proof.
  intros H. rewrite wrap_down_equation_1.
  destruct (Rgt_dec d PI) as [Hgt | Hn]; [lra | now simp wrap_down].
Qed.

Lemma wrap_down_gt (d : R) : d > PI -> wrap_down d = wrap_down (d - 2 * PI).
Proof.
  intros H. rewrite wrap_down_equation_1.
  destruct (Rgt_dec d PI) as [Hgt | Hn]; [now simp wrap_down | lra].
Qed.

Lemma wrap_up_ge (d : R) : - PI <= d -> wrap_up d = d.
Proof.
  intros H. rewrite wrap_up_equation_1.
  destruct (Rlt_dec d (- PI)) as [Hlt | Hn]; [lra | now simp wrap_up].
Qed.

Lemma wrap_up_lt (d : R) : d < - PI -> wrap_up d = wrap_up (d + 2 * PI).
Proof.
  intros H. rewrite wrap_up_equation_1.
  destruct (Rlt_dec d (- PI)) as [Hlt | Hn]; [now simp wrap_up | lra].
Qed.

Lemma wrap_down_spec (d : R) :
  wrap_down d <= PI /\
  (d > PI -> - PI < wrap_down d) /\
  (d <= PI -> wrap_down d = d) /\
  exists k : Z, wrap_down d = d + 2 * IZR k * PI.
Proof.
  pose proof PI_RGT_0 as HPI.
  apply (wrap_down_elim
           (fun d r => r <= PI /\ (d > PI -> - PI < r) /\ (d <= PI -> r = d) /\
                       exists k : Z, r = d + 2 * IZR k * PI)).
  - intros x Hgt (Hle & Hlow & Hid & k & Hk) _.
    split; [exact Hle | split; [ | split]].
    + intros _. destruct (Rle_dec (x - 2 * PI) PI) as [Hs | Hs].
      * rewrite (Hid Hs). lra.
      * apply Hlow. lra.
    + intros Hx. lra.
    + exists (k - 1)%Z. rewrite Hk, minus_IZR. lra.
  - intros x Hn _.
    split; [lra | split; [intros; lra | split; [reflexivity | ]]].
    exists 0%Z. lra.
Qed.

Lemma wrap_up_spec (d : R) :
  - PI <= wrap_up d /\
  (d < - PI -> wrap_up d < PI) /\
  (- PI <= d -> wrap_up d = d) /\
  exists k : Z, wrap_up d = d + 2 * IZR k * PI.
Proof.
  pose proof PI_RGT_0 as HPI.
  apply (wrap_up_elim
           (fun d r => - PI <= r /\ (d < - PI -> r < PI) /\ (- PI <= d -> r = d) /\
                       exists k : Z, r = d + 2 * IZR k * PI)).
  - intros x Hlt (Hge & Hhigh & Hid & k & Hk) _.
    split; [exact Hge | split; [ | split]].
    + intros _. destruct (Rle_dec (- PI) (x + 2 * PI)) as [Hs | Hs].
      * rewrite (Hid Hs). lra.
      * apply Hhigh. lra.
    + intros Hx. lra.
    + exists (k + 1)%Z. rewrite Hk, plus_IZR. lra.
  - intros x Hn _.
    split; [lra | split; [intros; lra | split; [reflexivity | ]]].
    exists 0%Z. lra.
Qed.

(** Both loops together: the result lies in the closed interval, differs
    from the input by whole turns, and sits on an end point only when
    the input lies on that side. *)
Lemma wrap_spec (d : R) :
  let r := wrap_up (wrap_down d) in
  - PI <= r <= PI /\
  (exists k : Z, r = d + 2 * IZR k * PI) /\
  (r = - PI -> d <= - PI) /\
  (r = PI -> PI <= d).
Proof.
  pose proof PI_RGT_0 as HPI.
  destruct (wrap_down_spec d) as (Hle & Hlow & Hid & k & Hk).
  destruct (Rle_dec d PI) as [Hd | Hd].
  - rewrite (Hid Hd).
    destruct (wrap_up_spec d) as (Hge & Hhigh & Hid' & k' & Hk').
    destruct (Rle_dec (- PI) d) as [Hd' | Hd'].
    + rewrite (Hid' Hd'). cbv zeta.
      split; [lra | split; [ | split; intros; lra]].
      exists 0%Z. lra.
    + assert (Hlt : wrap_up d < PI) by (apply Hhigh; lra).
      cbv zeta.
      split; [lra | split; [ | split; intros; lra]].
      exists k'. exact Hk'.
  - assert (Hgt : d > PI) by lra.
    specialize (Hlow Hgt).
    rewrite (wrap_up_ge (wrap_down d)) by lra.
    cbv zeta.
    split; [lra | split; [ | split; intros; lra]].
    exists k. exact Hk.
Qed.

Lemma small_turn_is_zero (n : Z) (x : R) :
  x = 2 * IZR n * PI -> - (2 * PI) < x < 2 * PI -> n = 0%Z.
Proof.
  pose proof PI_RGT_0 as HPI.
  intros Hx [Hlo Hhi]. subst x.
  assert (H1 : IZR (-1) < IZR n) by (simpl; nra).
  assert (H2 : IZR n < IZR 1) by (simpl; nra).
  apply lt_IZR in H1. apply lt_IZR in H2. lia.
Qed.

(** The wrap is an odd function: this is what the closed interval buys. *)
Lemma wrap_odd (d : R) : wrap_up (wrap_down (- d)) = - wrap_up (wrap_down d).
Proof.
  pose proof PI_RGT_0 as HPI.
  destruct (wrap_spec d) as ([Hlo Hhi] & (k & Hk) & Hm & Hp).
  destruct (wrap_spec (- d)) as ([Hlo' Hhi'] & (k' & Hk') & Hm' & Hp').
  set (r := wrap_up (wrap_down d)) in *.
  set (r' := wrap_up (wrap_down (- d))) in *.
  assert (Hsum : r + r' = 2 * IZR (k + k') * PI) by (rewrite plus_IZR; lra).
  assert (Hz : (k + k' = 0)%Z).
  { apply (small_turn_is_zero _ (r + r') Hsum). split.
    - destruct (Req_dec r (- PI)) as [E | E];
        destruct (Req_dec r' (- PI)) as [E' | E']; try lra;
        specialize (Hm E); specialize (Hm' E'); lra.
    - destruct (Req_dec r PI) as [E | E];
        destruct (Req_dec r' PI) as [E' | E']; try lra;
        specialize (Hp E); specialize (Hp' E'); lra. }
  rewrite Hz in Hsum. lra.
Qed.

Lemma degrees_radians (x : R) : degrees (radians x) = x.
Proof. unfold degrees, radians. pose proof PI_RGT_0. field. lra. Qed.

Lemma degrees_minus (x y : R) : degrees (x - y) = degrees x - degrees y.
Proof. unfold degrees. lra. Qed.

Lemma degrees_opp (x : R) : degrees (- x) = - degrees x.
Proof. unfold degrees. lra. Qed.

(** The wrapped difference in degrees. *)
Lemma wrapped_delta_ra_spec (solved_ra mount_ra : R) :
  let w := degrees (wrapped_delta_ra solved_ra mount_ra) in
  - 180 <= w <= 180 /\
  (exists k : Z, w = solved_ra - mount_ra + 360 * IZR k) /\
  (w = - 180 -> solved_ra - mount_ra <= - 180) /\
  (w = 180 -> 180 <= solved_ra - mount_ra).
Proof.
  pose proof PI_RGT_0 as HPI.
  unfold wrapped_delta_ra. cbv zeta.
  destruct (wrap_spec (radians solved_ra - radians mount_ra))
    as ([Hlo Hhi] & (k & Hk) & Hm & Hp).
  set (r := wrap_up (wrap_down (radians solved_ra - radians mount_ra))) in *.
  assert (Hdeg : forall x, degrees x = x * (180 / PI)) by reflexivity.
  assert (Hinv : PI * (180 / PI) = 180) by (field; lra).
  assert (Hpos : 0 < 180 / PI) by (apply Rdiv_lt_0_compat; lra).
  assert (Hr : degrees r = solved_ra - mount_ra + 360 * IZR k).
  { rewrite Hk. unfold degrees, radians. field. lra. }
  assert (Hback : r = degrees r * (PI / 180)).
  { unfold degrees. field. lra. }
  split; [split | split; [ | split]].
  - rewrite Hdeg. nra.
  - rewrite Hdeg. nra.
  - exists k. exact Hr.
  - intros E. assert (r = - PI) by (rewrite Hback, E; lra).
    specialize (Hm H). unfold radians in Hm. nra.
  - intros E. assert (r = PI) by (rewrite Hback, E; lra).
    specialize (Hp H). unfold radians in Hp. nra.
Qed.

Lemma wrapped_delta_ra_swap (a b : R) :
  wrapped_delta_ra b a = - wrapped_delta_ra a b.
Proof.
  unfold wrapped_delta_ra. cbv zeta.
  replace (radians b - radians a) with (- (radians a - radians b)) by lra.
  apply wrap_odd.
Qed.

(** The guarded cosine of [calculate_pa_error] is a maximum. *)
Lemma floor_is_Rmax (c : R) :
  (if Rlt_dec c (1 / 10) then 1 / 10 else c) = Rmax c (1 / 10).
Proof.
  unfold Rmax.
  destruct (Rlt_dec c (1 / 10)), (Rle_dec c (1 / 10)); lra.
Qed.


Lemma az_error_eq (solved_ra solved_dec mount_ra mount_dec : R)
    (latitude : option R) :
  az_error (calculate_pa_error solved_ra solved_dec mount_ra mount_dec latitude)
  = degrees (wrapped_delta_ra solved_ra mount_ra) * 60
    / Rmax (cos (radians mount_dec)) (1 / 10).
Proof. unfold calculate_pa_error. cbn. now rewrite floor_is_Rmax. Qed.

Lemma alt_error_eq (solved_ra solved_dec mount_ra mount_dec : R)
    (latitude : option R) :
  alt_error (calculate_pa_error solved_ra solved_dec mount_ra mount_dec latitude)
  = (solved_dec - mount_dec) * 60.
Proof.
  unfold calculate_pa_error. cbn.
  now rewrite degrees_minus, !degrees_radians.
Qed.





(** C5, as stated, fails: outside the floor region the azimuth error is
    scaled by the cosine of the reported declination only, so swapping
    (10, 0) with (0, 60) turns 1200 arcminutes into -600, not -1200. *)
Lemma swap_not_negated_across_declinations :
  let e := calculate_pa_error 10 0 0 60 None in
  let e' := calculate_pa_error 0 60 10 0 None in
  1 / 10 <= cos (radians 0) /\ 1 / 10 <= cos (radians 60) /\
  az_error e = 1200 /\ az_error e' = - 600 /\
  az_error e' <> - az_error e.
Proof.
  pose proof PI_RGT_0 as HPI.
  assert (C0 : cos (radians 0) = 1).
  { unfold radians. rewrite Rmult_0_l. apply cos_0. }
  assert (C60 : cos (radians 60) = 1 / 2).
  { unfold radians. replace (60 * (PI / 180)) with (PI / 3) by field.
    apply cos_PI3. }
  assert (D : degrees (wrapped_delta_ra 10 0) = 10).
  { unfold wrapped_delta_ra. cbv zeta.
    assert (Hr : radians 10 - radians 0 = PI / 18) by (unfold radians; field).
    rewrite Hr, wrap_down_le by lra. rewrite wrap_up_ge by lra.
    unfold degrees. field. lra. }
  cbv zeta.
  rewrite !az_error_eq, (wrapped_delta_ra_swap 10 0), degrees_opp, D, C0, C60.
  assert (M1 : Rmax (1 / 2) (1 / 10) = 1 / 2) by (apply Rmax_left; lra).
  assert (M2 : Rmax 1 (1 / 10) = 1) by (apply Rmax_left; lra).
  rewrite M1, M2.
  repeat split; lra.
Qed.

(** C5 (amended): outside the floor region, swapping the solved and
    reported coordinates negates the altitude error, and turns the
    azimuth error [az] into [- az * cos(reported.dec) / cos(solved.dec)]:
    the azimuth error is negated when the two declinations have the same
    cosine, as equal declinations do. *)
Theorem swap_negates_up_to_cosines
    (solved_ra solved_dec mount_ra mount_dec : R) (latitude latitude' : option R)
    (Hsolved : 1 / 10 <= cos (radians solved_dec))
    (Hmount : 1 / 10 <= cos (radians mount_dec)) :
  let e := calculate_pa_error solved_ra solved_dec mount_ra mount_dec latitude in
  let e' := calculate_pa_error mount_ra mount_dec solved_ra solved_dec latitude' in
  alt_error e' = - alt_error e /\
  az_error e' = - az_error e * (cos (radians mount_dec) / cos (radians solved_dec)).
Proof.
  cbv zeta. rewrite !az_error_eq, !alt_error_eq.
  rewrite (wrapped_delta_ra_swap solved_ra mount_ra), degrees_opp.
  rewrite !Rmax_left by exact Hsolved || exact Hmount.
  split; [lra | field; lra].
Qed.

Lemma swap_negates_up_to_cosines_witness :
  let e := calculate_pa_error 359 0 1 0 None in
  let e' := calculate_pa_error 1 0 359 0 None in
  alt_error e' = - alt_error e /\
  az_error e' = - az_error e * (cos (radians 0) / cos (radians 0)).
Proof.
  assert (C0 : cos (radians 0) = 1).
  { unfold radians. rewrite Rmult_0_l. apply cos_0. }
  apply (swap_negates_up_to_cosines 359 0 1 0 None None); rewrite C0; lra.
Defined.

(** C8: [is_aligned] is the strict comparison of the total error with
    the target; it is false when the two are equal. *)
Theorem is_aligned_strict (e : PAError) (target_accuracy : R) :
  (is_aligned e (Some target_accuracy) = true <-> total_error e < target_accuracy) /\
  (is_aligned e (Some target_accuracy) = false <-> target_accuracy <= total_error e) /\
  is_aligned e (Some (total_error e)) = false.
Proof.
  unfold is_aligned.
  split; [ | split].
  - destruct (Rlt_dec (total_error e) target_accuracy); split;
      intros; (reflexivity || discriminate || lra).
  - destruct (Rlt_dec (total_error e) target_accuracy); split;
      intros; (reflexivity || discriminate || lra).
  - destruct (Rlt_dec (total_error e) (total_error e)); [lra | reflexivity].
Qed.

End ErrorModel.

(* ================================================================== *)
(** * Properties of the mount protocol *)
(* ================================================================== *)

Section MountProtocol.

Import Py MountClient.
Open Scope string_scope.

Variable line : list string -> reply.

Lemma send_command_not_connected (self : MountClient) (command : string)
    (expect_response : bool) :
  _connected self = false ->
  send_command line self command expect_response = (self, None).
Proof. intros H. unfold send_command. now rewrite H. Qed.

Lemma vendor_needs_text (r : string) :
  truthy r && contains "OpenAstro" r = contains "OpenAstro" r.
Proof. destruct r; reflexivity. Qed.

(** C10: with the client not connected every protocol operation gives
    its empty answer ([None], a pair of [None]s, [False]) and leaves the
    client, so also the log of bytes written to its transport, exactly
    as it was. *)
Theorem not_connected_no_io
    (num : Type) (format_signed_2f : num -> string)
    (self : MountClient) (Hoff : _connected self = false) :
  (forall command expect_response,
      send_command line self command expect_response = (self, None)) /\
  get_position line self = (self, (None, None)) /\
  get_status line self = (self, None) /\
  is_slewing line self = (self, false) /\
  is_tracking line self = (self, false) /\
  is_adjusting line self = (self, false) /\
  get_az_alt_position line self = (self, (None, None)) /\
  (forall direction, start_slew line self direction = self) /\
  (forall direction, stop_slew line self direction = self) /\
  (forall rate, set_slew_rate line self rate = self) /\
  (forall arcminutes, move_azimuth line num format_signed_2f self arcminutes = self) /\
  (forall arcminutes, move_altitude line num format_signed_2f self arcminutes = self) /\
  (forall enabled, set_tracking line self enabled = self) /\
  home_az_alt line self = self.
Proof.
  pose proof (fun c e => send_command_not_connected self c e Hoff) as Hsend.
  repeat match goal with |- _ /\ _ => split end.
  - exact Hsend.
  - unfold get_position. now rewrite !Hsend.
  - apply Hsend.
  - unfold is_slewing. now rewrite Hsend.
  - unfold is_tracking. now rewrite Hsend.
  - unfold is_adjusting, get_status. now rewrite Hsend.
  - unfold get_az_alt_position. now rewrite Hsend.
  - intros d. unfold start_slew.
    destruct (is_compass (lower d)); [now rewrite Hsend | reflexivity].
  - intros d. unfold stop_slew.
    destruct (String.eqb (lower d) "a"); [now rewrite Hsend | ].
    destruct (is_compass (lower d)); [now rewrite Hsend | reflexivity].
  - intros r. unfold set_slew_rate.
    match goal with |- (if ?b then _ else _) = _ => destruct b end;
      [now rewrite Hsend | reflexivity].
  - intros x. unfold move_azimuth. now rewrite Hsend.
  - intros x. unfold move_altitude. now rewrite Hsend.
  - intros b. unfold set_tracking. now rewrite Hsend.
  - unfold home_az_alt. now rewrite Hsend.
Qed.

(** C9: opening the serial link sends the product query [:GVP#] and
    nothing else; the attempt succeeds exactly when the answer read back
    contains [OpenAstro].  On success the client is connected in serial
    mode over the open port; otherwise (answer without the vendor text,
    empty answer, no answer) the attempt reports failure, the port is
    closed and the client is no more connected than before. *)
Theorem connect_serial_handshake
    (open_serial : string -> bool) (self : MountClient) (port : string)
    (Hopen : open_serial port = true) :
  let response :=
    match line [":GVP#"] with
    | Sends incoming => Some (read_response incoming)
    | _ => None
    end in
  let accepted :=
    match response with
    | Some r => contains "OpenAstro" r
    | None => false
    end in
  let '(self', ok) := _connect_serial true open_serial line self port in
  ok = accepted /\
  option_map written (serial_conn self') =
    Some (match line [":GVP#"] with Refuses => [] | _ => [":GVP#"] end) /\
  if accepted then
    _connected self' = true /\ mode self' = Some serial /\
    option_map is_open (serial_conn self') = Some true
  else
    _connected self' = _connected self /\ mode self' = mode self /\
    option_map is_open (serial_conn self') = Some false.
Proof.
  unfold _connect_serial, _serial_command. cbn. rewrite Hopen. cbn.
  destruct (line [":GVP#"]) as [ | | incoming]; cbn.
  - repeat split.
  - repeat split.
  - rewrite vendor_needs_text.
    destruct (contains "OpenAstro" (read_response incoming)); cbn; repeat split.
Qed.

End MountProtocol.

Lemma not_connected_no_io_witness :
  MountClient.get_position (fun _ => MountClient.Sends "12:00:00#")
    MountClient.__init__ = (MountClient.__init__, (None, None)).
Proof.
  apply (not_connected_no_io (fun _ => MountClient.Sends "12:00:00#")
           Z (fun _ => "+1.00"%string) MountClient.__init__).
  reflexivity.
Defined.

Lemma connect_serial_handshake_witness :
  let '(self', ok) :=
    MountClient._connect_serial true (fun _ => true)
      (fun _ => MountClient.Sends "Unknown mount#")
      MountClient.__init__ "/dev/ttyACM0" in
  ok = false /\
  option_map MountClient.written (MountClient.serial_conn self') = Some [":GVP#"%string] /\
  MountClient._connected self' = false /\ MountClient.mode self' = None /\
  option_map MountClient.is_open (MountClient.serial_conn self') = Some false.
Proof.
  exact (connect_serial_handshake (fun _ => MountClient.Sends "Unknown mount#")
           (fun _ => true) MountClient.__init__ "/dev/ttyACM0" eq_refl).
Defined.

(* ================================================================== *)
(** * Properties of the run control and of the alignment loop *)
(* ================================================================== *)

Section ControlLoop.

Import PaCalculator App.
Open Scope R_scope.

Lemma start_rejected (data : field) (g : Globals) :
  alignment_running g = true ->
  api_auto_align_start data g = (g, bad_request "Alignment already running"%string).
Proof. intros H. unfold api_auto_align_start. now rewrite H. Qed.

Lemma start_sets_running (data : field) (g : Globals) (m : string) :
  snd (api_auto_align_start data g) = ok m ->
  alignment_running (fst (api_auto_align_start data g)) = true.
Proof.
  unfold api_auto_align_start.
  destruct (alignment_running g); [discriminate | ].
  destruct data; cbn; (discriminate || reflexivity).
Qed.


(** Two starts in a row: the second is rejected and exactly one worker
    has been started. *)
Lemma start_twice (data data' : field) (g : Globals) (m : string) :
  let '(g1, r1) := api_auto_align_start data g in
  let '(g2, r2) := api_auto_align_start data' g1 in
  r1 = ok m ->
  r2 = bad_request "Alignment already running"%string /\ g2 = g1 /\
  List.length (started g2) = S (List.length (started g)).
Proof.
  pose proof (start_sets_running data g m) as Hon.
  destruct (api_auto_align_start data g) as [g1 r1] eqn:E1. cbn in Hon.
  destruct (api_auto_align_start data' g1) as [g2 r2] eqn:E2.
  intros Hr. specialize (Hon Hr).
  rewrite (start_rejected data' g1 Hon) in E2.
  injection E2 as <- <-.
  repeat split.
  unfold api_auto_align_start in E1.
  destruct (alignment_running g); [inversion E1; subst; discriminate | ].
  destruct data; inversion E1; subst; try discriminate;
    cbn; rewrite length_app; cbn; lia.
Qed.

(** The worker's state after a failed capture. *)
Definition after_failed_capture (st : Loop) : Loop :=
  {| iteration := S (iteration st);
     loop_last_pa_error := loop_last_pa_error st;
     loop_last_solve_result := loop_last_solve_result st;
     trace := trace st ++
              [EmitStatus (Capturing (S (iteration st))) info;
               CameraCapture Config.DEFAULT_EXPOSURE;
               EmitStatus CaptureFailed error;
               Sleep 2] |}.

Lemma failed_capture_step (w : World) (target_accuracy : R) (st : Loop) :
  no_file (capture w (S (iteration st))) = true ->
  loop_body w target_accuracy st = (after_failed_capture st, Continue).
Proof.
  intros H. unfold loop_body. cbn. rewrite H.
  unfold after_failed_capture, emit_status, do. cbn.
  now rewrite <- !app_assoc.
Qed.

(** C1, as stated, fails: the pass that meets a failed capture has
    already advanced the iteration counter. *)
Lemma failed_capture_advances_iteration :
  let w := {| running_at := fun _ => true;
              capture := fun _ => None;
              solve := fun _ _ => None;
              get_position := fun _ => (None, None);
              is_adjusting := fun _ _ => false |} in
  let st := {| iteration := 0; loop_last_pa_error := None;
               loop_last_solve_result := None; trace := [] |} in
  no_file (capture w 1) = true /\
  iteration (fst (loop_body w 60 st)) = 1%nat /\
  iteration (fst (loop_body w 60 st)) <> iteration st.
Proof. cbn. repeat split. discriminate. Qed.

(** C1 (amended): when the capture fails the pass emits the
    capture-failed event, sleeps 2 seconds and goes back to the loop
    test, without leaving the loop, with the iteration counter one
    higher than at the start of the pass: a failed capture uses up one
    of the max-iterations passes. *)
Theorem failed_capture_consumes_iteration
    (w : World) (target_accuracy : R) (st : Loop)
    (Hfail : no_file (capture w (S (iteration st))) = true) :
  let '(st', c) := loop_body w target_accuracy st in
  c = Continue /\
  iteration st' = S (iteration st) /\
  trace st' = (trace st ++
               [EmitStatus (Capturing (S (iteration st))) info;
                CameraCapture Config.DEFAULT_EXPOSURE;
                EmitStatus CaptureFailed error;
                Sleep 2])%list /\
  loop_last_pa_error st' = loop_last_pa_error st /\
  loop_last_solve_result st' = loop_last_solve_result st /\
  forall max_iterations budget,
    while_loop w target_accuracy max_iterations (S budget) st =
    if running_at w (iteration st) && (iteration st <? max_iterations)%nat
    then while_loop w target_accuracy max_iterations budget st'
    else (st, Continue).
Proof.
  rewrite (failed_capture_step w target_accuracy st Hfail).
  repeat split.
  intros max_iterations budget. cbn [while_loop].
  now rewrite (failed_capture_step w target_accuracy st Hfail).
Qed.

(** ** The budget of passes *)

Lemma loop_body_iteration (w : World) (target_accuracy : R) (st : Loop) :
  iteration (fst (loop_body w target_accuracy st)) = S (iteration st).
Proof.
  unfold loop_body.
  repeat match goal with
         | |- context [match ?x with _ => _ end] => destruct x
         end; reflexivity.
Qed.

(** The budget handed to [while_loop] is never what stops it: any
    budget of at least [max_iterations - iteration] gives the same run. *)
Lemma while_loop_enough_budget (w : World) (target_accuracy : R)
    (max_iterations : nat) (budget budget' : nat) :
  forall st,
    (max_iterations - iteration st <= budget)%nat ->
    (max_iterations - iteration st <= budget')%nat ->
    while_loop w target_accuracy max_iterations budget st =
    while_loop w target_accuracy max_iterations budget' st.
Proof.
  revert budget'.
  induction budget as [ | b IH]; intros budget' st Hb Hb'.
  - destruct budget'; cbn [while_loop];
      destruct (running_at w (iteration st)); cbn [andb]; trivial;
      destruct (iteration st <? max_iterations)%nat eqn:E; trivial;
      apply Nat.ltb_lt in E; lia.
  - destruct budget' as [ | b']; cbn [while_loop];
      destruct (running_at w (iteration st)); cbn [andb]; trivial;
      destruct (iteration st <? max_iterations)%nat eqn:E; trivial;
      apply Nat.ltb_lt in E; try lia.
    pose proof (loop_body_iteration w target_accuracy st) as Hit.
    destruct (loop_body w target_accuracy st) as [st' c]. cbn [fst] in Hit.
    destruct c; trivial.
    apply IH; lia.
Qed.

(** The trace of [n] passes that all meet a failed capture, the first
    of them numbered [S from]. *)
Fixpoint failed_passes (from n : nat) : list action :=
  match n with
  | O => []
  | S n' =>
      [EmitStatus (Capturing (S from)) info;
       CameraCapture Config.DEFAULT_EXPOSURE;
       EmitStatus CaptureFailed error;
       Sleep 2] ++ failed_passes (S from) n'
  end.

Lemma failing_camera_passes (w : World) (target_accuracy : R)
    (max_iterations : nat)
    (Hfail : forall n, no_file (capture w n) = true)
    (Hrun : forall n, running_at w n = true) :
  forall n st,
    (iteration st + n = max_iterations)%nat ->
    while_loop w target_accuracy max_iterations n st =
    ({| iteration := max_iterations;
        loop_last_pa_error := loop_last_pa_error st;
        loop_last_solve_result := loop_last_solve_result st;
        trace := trace st ++ failed_passes (iteration st) n |}, Continue).
Proof.
  induction n as [ | n IH]; intros st Hn.
  - cbn [while_loop failed_passes]. rewrite Hrun.
    replace (iteration st <? max_iterations)%nat with false
      by (symmetry; apply Nat.ltb_ge; lia).
    cbn. rewrite app_nil_r, Nat.add_0_r in *. subst max_iterations.
    now destruct st.
  - cbn [while_loop]. rewrite Hrun.
    replace (iteration st <? max_iterations)%nat with true
      by (symmetry; apply Nat.ltb_lt; lia).
    cbn [andb]. rewrite (failed_capture_step w target_accuracy st (Hfail _)).
    rewrite IH by (cbn; lia).
    cbn. now rewrite <- app_assoc.
Qed.

(** A run whose every capture fails makes exactly [MAX_ITERATIONS]
    passes and ends with the max-iterations warning. *)
Lemma failing_camera_exhausts_budget (w : World) (target_accuracy : R)
    (g : Globals)
    (Hfail : forall n, no_file (capture w n) = true)
    (Hrun : forall n, running_at w n = true) :
  auto_align_loop w target_accuracy g =
  Some ({| alignment_running := false;
           alignment_thread := alignment_thread g;
           last_pa_error := last_pa_error g;
           last_solve_result := last_solve_result g;
           started := started g |},
        {| iteration := Config.MAX_ITERATIONS;
           loop_last_pa_error := last_pa_error g;
           loop_last_solve_result := last_solve_result g;
           trace :=
             [EmitStatus AutoAlignStarted info] ++
             failed_passes 0 Config.MAX_ITERATIONS ++
             [EmitStatus (MaxIterationsReached Config.MAX_ITERATIONS) warning;
              EmitStatus AutoAlignFinished info] |}).
Proof.
  unfold auto_align_loop.
  rewrite (failing_camera_passes w target_accuracy Config.MAX_ITERATIONS
             Hfail Hrun Config.MAX_ITERATIONS) by reflexivity.
  cbn -[failed_passes Config.MAX_ITERATIONS].
  rewrite Nat.leb_refl.
  unfold emit_status, do. cbn -[failed_passes Config.MAX_ITERATIONS].
  now rewrite <- !app_assoc.
Qed.

End ControlLoop.


Lemma failed_capture_consumes_iteration_witness :
  let w := {| App.running_at := fun _ => true;
              App.capture := fun _ => None;
              App.solve := fun _ _ => None;
              App.get_position := fun _ => (None, None);
              App.is_adjusting := fun _ _ => false |} in
  let st := {| App.iteration := 3; App.loop_last_pa_error := None;
               App.loop_last_solve_result := None; App.trace := [] |} in
  App.iteration (fst (App.loop_body w 60 st)) = 4%nat /\
  snd (App.loop_body w 60 st) = App.Continue.
Proof.
  pose proof (failed_capture_consumes_iteration
                {| App.running_at := fun _ => true;
                   App.capture := fun _ => None;
                   App.solve := fun _ _ => None;
                   App.get_position := fun _ => (None, None);
                   App.is_adjusting := fun _ _ => false |}
                60
                {| App.iteration := 3; App.loop_last_pa_error := None;
                   App.loop_last_solve_result := None; App.trace := [] |}
                eq_refl) as H.
  cbv zeta.
  destruct (App.loop_body _ _ _) as [st' c].
  destruct H as (Hc & Hi & _).
  split; [exact Hi | exact Hc].
Defined.

(* ================================================================== *)
(** * Properties of the coordinate parsers *)
(* ================================================================== *)

Section CoordinateText.

Import Py PaCalculator.
Open Scope string_scope.

(** ** Characters of a text *)






Lemma split_with_sep (sep : ascii) (s : string) :
  has_char sep s = true -> (2 <= List.length (split sep s))%nat.
Proof.
  assert (Hne : forall t, (1 <= List.length (split sep t))%nat).
  { induction t as [ | c t IH]; cbn; [lia | ].
    destruct (Ascii.eqb c sep); cbn; [lia | ].
    destruct (split sep t); cbn in *; lia. }
  induction s as [ | c s IH]; cbn; [discriminate | ].
  destruct (Ascii.eqb c sep); cbn.
  - intros _. specialize (Hne s). lia.
  - intros H. specialize (IH H).
    destruct (split sep s); cbn in *; lia.
Qed.

(** ** What [float()] accepts *)












(** ** Malformed right-ascension and declination text *)











(** ** Separators of a declination *)




















End CoordinateText.



(** The value behind the separators: -(10 + 30/60 + 15/3600) degrees. *)
Example dec_star_quote_value :
  option_map (Py.feq (Py.Fin (- (2521 # 240))))
    (PaCalculator.parse_dec_string (Some "-10*30'15"%string)) = Some true.
Proof. vm_compute. reflexivity. Qed.

(* ================================================================== *)
(** * Further properties of the error computation *)
(* ================================================================== *)

Section ErrorModelBounds.

Import PaCalculator.
Open Scope R_scope.

Lemma norm_ge_abs (a b : R) : Rabs a <= sqrt (a ^ 2 + b ^ 2).
Proof.
  rewrite <- (sqrt_Rsqr_abs a).
  apply sqrt_le_1_alt. unfold Rsqr. nra.
Qed.

(** The total error is never negative and bounds 60 times either
    component: a result within the target has both components within
    target/60 arcminutes. *)
Theorem total_error_bounds_components
    (solved_ra solved_dec mount_ra mount_dec : R) (latitude : option R) :
  let e := calculate_pa_error solved_ra solved_dec mount_ra mount_dec latitude in
  0 <= total_error e /\
  60 * Rabs (az_error e) <= total_error e /\
  60 * Rabs (alt_error e) <= total_error e.
Proof.
  cbv zeta.
  set (e := calculate_pa_error solved_ra solved_dec mount_ra mount_dec latitude).
  assert (Ht : total_error e = sqrt (az_error e ^ 2 + alt_error e ^ 2) * 60)
    by reflexivity.
  pose proof (norm_ge_abs (az_error e) (alt_error e)) as Haz.
  pose proof (norm_ge_abs (alt_error e) (az_error e)) as Halt.
  replace (alt_error e ^ 2 + az_error e ^ 2)
    with (az_error e ^ 2 + alt_error e ^ 2) in Halt by ring.
  pose proof (Rabs_pos (az_error e)) as Hpos.
  rewrite Ht. repeat split; lra.
Qed.

Lemma wrapped_delta_ra_same (ra : R) : wrapped_delta_ra ra ra = 0.
Proof.
  pose proof PI_RGT_0 as HPI.
  unfold wrapped_delta_ra. cbv zeta.
  replace (radians ra - radians ra) with 0 by lra.
  rewrite wrap_down_le by lra. apply wrap_up_ge. lra.
Qed.

(** When the solved position is the reported position all three error
    components are zero, and the result is aligned for every positive
    target accuracy. *)
Theorem same_position_is_aligned (ra dec : R) (latitude : option R)
    (target_accuracy : R) (Hpos : 0 < target_accuracy) :
  let e := calculate_pa_error ra dec ra dec latitude in
  az_error e = 0 /\ alt_error e = 0 /\ total_error e = 0 /\
  is_aligned e (Some target_accuracy) = true.
Proof.
  cbv zeta.
  assert (Haz : az_error (calculate_pa_error ra dec ra dec latitude) = 0).
  { rewrite az_error_eq, wrapped_delta_ra_same. unfold degrees, Rdiv.
    now rewrite !Rmult_0_l. }
  assert (Halt : alt_error (calculate_pa_error ra dec ra dec latitude) = 0).
  { rewrite alt_error_eq. lra. }
  assert (Htot : total_error (calculate_pa_error ra dec ra dec latitude) = 0).
  { change (total_error (calculate_pa_error ra dec ra dec latitude))
      with (sqrt (az_error (calculate_pa_error ra dec ra dec latitude) ^ 2 +
                  alt_error (calculate_pa_error ra dec ra dec latitude) ^ 2) * 60).
    rewrite Haz, Halt.
    replace (0 ^ 2 + 0 ^ 2) with 0 by ring. rewrite sqrt_0. lra. }
  repeat split; trivial.
  unfold is_aligned. rewrite Htot.
  destruct (Rlt_dec 0 target_accuracy); [reflexivity | lra].
Qed.

Lemma same_position_is_aligned_witness :
  is_aligned (calculate_pa_error 180 45 180 45 None) (Some 60) = true.
Proof.
  apply (same_position_is_aligned 180 45 None 60). lra.
Defined.

(** The latitude argument, given or defaulted, has no effect on the
    returned error. *)
Theorem latitude_is_ignored
    (solved_ra solved_dec mount_ra mount_dec : R) (latitude latitude' : option R) :
  calculate_pa_error solved_ra solved_dec mount_ra mount_dec latitude =
  calculate_pa_error solved_ra solved_dec mount_ra mount_dec latitude'.
Proof. reflexivity. Qed.

(** The cosine floor caps the amplification of the right-ascension
    difference at ten: the azimuth error is at most ten times the wrapped
    difference in arcminutes, hence never beyond 108000 arcminutes. *)
Theorem az_error_amplification_capped
    (solved_ra solved_dec mount_ra mount_dec : R) (latitude : option R) :
  let e := calculate_pa_error solved_ra solved_dec mount_ra mount_dec latitude in
  Rabs (az_error e) <= 10 * Rabs (degrees (wrapped_delta_ra solved_ra mount_ra) * 60) /\
  Rabs (az_error e) <= 108000.
Proof.
  cbv zeta. rewrite az_error_eq.
  destruct (wrapped_delta_ra_spec solved_ra mount_ra) as ([Hlo Hhi] & _).
  cbv zeta in Hlo, Hhi.
  set (w := degrees (wrapped_delta_ra solved_ra mount_ra)) in *.
  pose proof (Rmax_r (cos (radians mount_dec)) (1 / 10)) as Hfloor.
  set (c := Rmax (cos (radians mount_dec)) (1 / 10)) in *.
  assert (Hc : 0 < c) by lra.
  assert (Hinv : 0 < / c <= 10).
  { split; [now apply Rinv_0_lt_compat | ].
    replace 10 with (/ (1 / 10)) by field.
    apply Rinv_le_contravar; lra. }
  unfold Rdiv. rewrite Rabs_mult, (Rabs_pos_eq (/ c)) by lra.
  pose proof (Rabs_pos (w * 60)) as Hw0.
  assert (Hw : Rabs (w * 60) <= 10800).
  { apply Rabs_le. lra. }
  split; nra.
Qed.


(** ** [estimate_iterations] *)

Lemma estimate_loop_spec (target_accuracy : R) (left : nat) :
  forall (error : R) (iterations : nat),
    let n := estimate_loop target_accuracy left error iterations in
    (iterations <= n <= iterations + left)%nat /\
    (forall k, (k < n - iterations)%nat -> target_accuracy < error * (6 / 10) ^ k) /\
    ((n < iterations + left)%nat ->
     error * (6 / 10) ^ (n - iterations) <= target_accuracy).
Proof.
  induction left as [ | left IH]; intros error iterations; cbn [estimate_loop].
  - destruct (Rgt_dec error target_accuracy) as [Hgt | Hle]; cbv zeta;
      (split; [lia | split; [intros k Hk; lia | intros Hn; lia]]).
  - destruct (Rgt_dec error target_accuracy) as [Hgt | Hle]; cbv zeta.
    + specialize (IH (error * (6 / 10)) (S iterations)). cbv zeta in IH.
      destruct IH as (Hrange & Habove & Hbelow).
      set (n := estimate_loop target_accuracy left (error * (6 / 10)) (S iterations)) in *.
      split; [lia | split].
      * intros k Hk. destruct k as [ | k]; [cbn; lra | ].
        replace (error * (6 / 10) ^ S k) with (error * (6 / 10) * (6 / 10) ^ k)
          by (cbn; ring).
        apply Habove. lia.
      * intros Hn.
        replace (n - iterations)%nat with (S (n - S iterations)) by lia.
        replace (error * (6 / 10) ^ S (n - S iterations))
          with (error * (6 / 10) * (6 / 10) ^ (n - S iterations)) by (cbn; ring).
        apply Hbelow. lia.
    + split; [lia | split; [intros k Hk; lia | ]].
      intros _. rewrite Nat.sub_diag. cbn. lra.
Qed.

(** The estimate is the least number of 0.6-fold reductions that bring
    the error to the target, capped at 20: every smaller number of
    reductions leaves the error above the target, and below the cap the
    estimated number reaches it.  It is 0 exactly when the error is
    already within the target. *)
Theorem estimate_iterations_least
    (current_error target_accuracy : R) :
  let n := estimate_iterations current_error (Some target_accuracy) in
  (n <= 20)%nat /\
  (forall k, (k < n)%nat -> target_accuracy < current_error * (6 / 10) ^ k) /\
  ((n < 20)%nat -> current_error * (6 / 10) ^ n <= target_accuracy) /\
  (n = 0%nat <-> current_error <= target_accuracy).
Proof.
  cbv zeta. unfold estimate_iterations.
  destruct (Rle_dec current_error target_accuracy) as [Hle | Hgt].
  - split; [lia | split; [intros k Hk; lia | split]].
    + intros _. cbn. lra.
    + split; trivial.
  - destruct (estimate_loop_spec target_accuracy 20 current_error 0)
      as (Hrange & Habove & Hbelow).
    cbv zeta in *.
    set (n := estimate_loop target_accuracy 20 current_error 0) in *.
    rewrite Nat.sub_0_r in *.
    split; [lia | split; [exact Habove | split; [exact Hbelow | ]]].
    split; [ | lra].
    intros E. rewrite E in Hbelow. cbn in Hbelow.
    assert (0 < 20)%nat by lia. specialize (Hbelow H). lra.
Qed.

End ErrorModelBounds.

(* ================================================================== *)
(** * Further properties of the coordinate parsers *)
(* ================================================================== *)

Section CoordinateTextMore.

Import Py PaCalculator.
Open Scope string_scope.

Lemma rstrip_cons (c : ascii) (s : string) :
  isspace c = false -> rstrip (String c s) = String c (rstrip s).
Proof. intros Hc. cbn. rewrite Hc. now destruct (rstrip s). Qed.

Lemma strip_cons (c : ascii) (s : string) :
  isspace c = false -> strip (String c s) = String c (rstrip s).
Proof. intros Hc. unfold strip. cbn [lstrip]. rewrite Hc. now apply rstrip_cons. Qed.

Lemma fmul_minus_one_l (x : Py.float) :
  fmul (of_int (-1)) x = fneg (fmul (of_int 1) x).
Proof.
  destruct x as [[[ | p | p] d] | [ | ] | ]; reflexivity.
Qed.

Lemma fmul_minus_one_r (x : Py.float) :
  fmul x (of_int (-1)) = fneg (fmul x (of_int 1)).
Proof.
  destruct x as [[n d] | [ | ] | ]; try reflexivity.
  unfold fmul, fneg, of_int, inject_Z, Qmult, Qopp. cbn [Qnum Qden].
  f_equal. f_equal. lia.
Qed.

(** A leading minus negates what the same text with a leading plus
    gives; the two fail together. *)
Theorem dec_sign_symmetry (body : string) :
  parse_dec_string (Some (String "-" body)) =
  option_map fneg (parse_dec_string (Some (String "+" body))).
Proof.
  unfold parse_dec_string. cbn [bind].
  rewrite !strip_cons by reflexivity.
  cbn [take_sign Ascii.eqb Bool.eqb bind].
  set (parts := split ":" (normalize_separators (rstrip body))).
  destruct (2 <=? List.length parts)%nat.
  - destruct (int (nth 0 parts EmptyString)) as [degrees | ]; [ | reflexivity].
    destruct (int (nth 1 parts EmptyString)) as [minutes | ]; [ | reflexivity].
    cbn [bind].
    destruct (if (2 <? List.length parts)%nat
              then float_of_string (nth 2 parts EmptyString)
              else Some (Fin 0)) as [seconds | ]; [ | reflexivity].
    cbn [bind option_map]. now rewrite fmul_minus_one_l.
  - destruct (float_of_string (normalize_separators (rstrip body)))
      as [value | ]; [ | reflexivity].
    cbn [bind option_map]. now rewrite fmul_minus_one_r.
Qed.

(** ** Surrounding whitespace *)

Definition starts_nonspace (s : string) : Prop :=
  match s with
  | EmptyString => True
  | String c _ => isspace c = false
  end.

Lemma lstrip_starts_nonspace (s : string) : starts_nonspace (lstrip s).
Proof.
  induction s as [ | c s IH]; cbn; [exact I | ].
  destruct (isspace c) eqn:Hc; [exact IH | exact Hc].
Qed.

Lemma rstrip_starts_nonspace (s : string) :
  starts_nonspace s -> starts_nonspace (rstrip s).
Proof.
  destruct s as [ | c s]; cbn; [trivial | ].
  intros Hc. rewrite Hc. now destruct (rstrip s).
Qed.

Lemma lstrip_fixed (s : string) : starts_nonspace s -> lstrip s = s.
Proof. destruct s as [ | c s]; cbn; [trivial | ]. now intros ->. Qed.

Lemma rstrip_idempotent (s : string) : rstrip (rstrip s) = rstrip s.
Proof.
  induction s as [ | c s IH]; [reflexivity | ].
  cbn [rstrip]. destruct (rstrip s) as [ | d r] eqn:Er.
  - destruct (isspace c) eqn:Hc; [reflexivity | ].
    cbn. now rewrite Hc.
  - cbn [rstrip] in *. now rewrite IH.
Qed.

Lemma strip_idempotent (s : string) : strip (strip s) = strip s.
Proof.
  unfold strip.
  rewrite (lstrip_fixed (rstrip (lstrip s)))
    by apply rstrip_starts_nonspace, lstrip_starts_nonspace.
  apply rstrip_idempotent.
Qed.

(** Whitespace around a coordinate text is of no account: both parsers
    give on a text what they give on the text stripped. *)
Theorem surrounding_whitespace_ignored (text : string) :
  parse_ra_string (Some (strip text)) = parse_ra_string (Some text) /\
  parse_dec_string (Some (strip text)) = parse_dec_string (Some text).
Proof.
  unfold parse_ra_string, parse_dec_string. cbn [bind].
  now rewrite strip_idempotent.
Qed.

End CoordinateTextMore.

(* ================================================================== *)
(** * Further properties of the mount protocol *)
(* ================================================================== *)

Section MountProtocolMore.

Import Py MountClient.
Open Scope string_scope.

Variable line : list string -> reply.

(** ** Framing of responses *)

Lemma read_response_clean (incoming : string) :
  has_char "#" (read_response incoming) = false /\
  all_chars is_ascii (read_response incoming) = true.
Proof.
  induction incoming as [ | b rest [IH1 IH2]]; cbn [read_response]; [now split | ].
  destruct (is_ascii b) eqn:Hb; [ | now split].
  destruct (Ascii.eqb b "#") eqn:Hh; [now split | ].
  cbn [has_char all_chars]. now rewrite Hh, Hb, IH1, IH2.
Qed.

Lemma read_response_app (body rest : string) :
  all_chars is_ascii body = true -> has_char "#" body = false ->
  read_response (body ++ rest) = body ++ read_response rest.
Proof.
  induction body as [ | c body IH]; [reflexivity | ].
  cbn [all_chars has_char]. intros Ha Hh.
  apply andb_prop in Ha as [Hc Ha]. apply orb_false_elim in Hh as [Hc' Hh].
  cbn [String.append read_response]. rewrite Hc, Hc'. now rewrite (IH Ha Hh).
Qed.

(** A response is what precedes the first [#]: an ASCII text without
    [#] that is followed by the terminator is read back as it is,
    whatever comes after, and is also read back when the terminator never
    arrives; no response ever holds a [#] or a non-ASCII byte. *)
Theorem response_framing (body rest : string)
    (Hascii : all_chars is_ascii body = true)
    (Hplain : has_char "#" body = false) :
  read_response (body ++ String "#" rest) = body /\
  read_response body = body /\
  forall incoming,
    has_char "#" (read_response incoming) = false /\
    all_chars is_ascii (read_response incoming) = true.
Proof.
  split; [ | split].
  - rewrite (read_response_app _ _ Hascii Hplain). cbn.
    clear. induction body as [ | c body IH]; cbn; [reflexivity | now rewrite IH].
  - pose proof (read_response_app body EmptyString Hascii Hplain) as H.
    assert (E : forall s : string, s ++ EmptyString = s).
    { clear. induction s as [ | c s IH]; cbn; [reflexivity | now rewrite IH]. }
    rewrite E in H. cbn in H. now rewrite E in H.
  - apply read_response_clean.
Qed.

(** ** What a command can change *)

Lemma serial_command_effect (self : MountClient) (command : string)
    (expect_response : bool) :
  let '(self', r) := _serial_command line self command expect_response in
  _connected self' = _connected self /\ mode self' = mode self /\
  indi_client self' = indi_client self /\
  telescope_name self' = telescope_name self /\
  option_map is_open (serial_conn self') = option_map is_open (serial_conn self) /\
  option_map port_name (serial_conn self') = option_map port_name (serial_conn self) /\
  (serial_conn self' = serial_conn self \/
   option_map written (serial_conn self') =
   option_map (fun w => w ++ [command])%list (option_map written (serial_conn self))).
Proof.
  unfold _serial_command.
  destruct (serial_conn self) as [conn | ] eqn:Ec.
  - destruct (is_open conn) eqn:Eo; cbn [negb].
    + destruct (line (written conn ++ [command])); cbn; rewrite ?Ec; cbn;
        repeat split; auto.
    + rewrite Ec. cbn. repeat split; auto.
  - rewrite Ec. cbn. repeat split; auto.
Qed.

(** Sending a command never changes whether the client is connected, its
    mode or whether its port is open, and writes to the transport nothing
    but, at most once, the command itself. *)
Theorem send_command_effect (self : MountClient) (command : string)
    (expect_response : bool) :
  let '(self', r) := send_command line self command expect_response in
  _connected self' = _connected self /\ mode self' = mode self /\
  indi_client self' = indi_client self /\
  telescope_name self' = telescope_name self /\
  option_map is_open (serial_conn self') = option_map is_open (serial_conn self) /\
  option_map port_name (serial_conn self') = option_map port_name (serial_conn self) /\
  (serial_conn self' = serial_conn self \/
   option_map written (serial_conn self') =
   option_map (fun w => w ++ [command])%list (option_map written (serial_conn self))).
Proof.
  pose proof (serial_command_effect self command expect_response) as Hserial.
  unfold send_command.
  destruct (negb (_connected self)); [repeat split; auto | ].
  destruct (mode self) as [[ | ] | ] eqn:Hm.
  - unfold _indi_command. rewrite Hm. repeat split; auto.
  - exact Hserial.
  - rewrite Hm. repeat split; auto.
Qed.

Lemma send_command_serial (self : MountClient) (conn : Serial)
    (command : string) (expect_response : bool) :
  _connected self = true -> mode self = Some serial ->
  serial_conn self = Some conn -> is_open conn = true ->
  send_command line self command expect_response =
  match line (written conn ++ [command]) with
  | Refuses => (self, None)
  | Breaks =>
      (set_serial_conn self (Some (write conn command)),
       if expect_response then None else Some EmptyString)
  | Sends incoming =>
      (set_serial_conn self (Some (write conn command)),
       if expect_response then Some (read_response incoming)
       else Some EmptyString)
  end.
Proof.
  intros Hc Hm Hs Ho. unfold send_command, _serial_command.
  now rewrite Hc, Hm, Hs, Ho.
Qed.

(** A position query over a live serial link sends [:GR#] and then
    [:GD#], in that order and nothing else, and returns the two framed
    answers. *)
Theorem get_position_sends_GR_then_GD (self : MountClient) (conn : Serial)
    (ra_bytes dec_bytes : string)
    (Hconnected : _connected self = true) (Hmode : mode self = Some serial)
    (Hconn : serial_conn self = Some conn) (Hopen : is_open conn = true)
    (Hra : line (written conn ++ [":GR#"]) = Sends ra_bytes)
    (Hdec : line ((written conn ++ [":GR#"]) ++ [":GD#"]) = Sends dec_bytes) :
  get_position line self =
  (set_serial_conn self
     (Some {| port_name := port_name conn; is_open := true;
              written := (written conn ++ [":GR#"]) ++ [":GD#"] |}),
   (Some (read_response ra_bytes), Some (read_response dec_bytes))).
Proof.
  unfold get_position.
  rewrite (send_command_serial self conn ":GR#" true Hconnected Hmode Hconn Hopen).
  rewrite Hra.
  rewrite (send_command_serial (set_serial_conn self (Some (write conn ":GR#")))
             (write conn ":GR#") ":GD#" true Hconnected Hmode eq_refl Hopen).
  cbn [written write]. rewrite Hdec.
  unfold set_serial_conn, write. cbn. now rewrite Hopen.
Qed.

(** A relative move over a live serial link is fire-and-forget: unless
    the write itself fails, exactly the framed command [:MAZ<amount>#]
    (or [:MAL<amount>#]) is appended to what was written, and nothing the
    mount answers, or fails to answer, makes any difference. *)
Theorem move_writes_framed_command
    (num : Type) (format_signed_2f : num -> string)
    (self : MountClient) (conn : Serial) (arcminutes : num)
    (Hconnected : _connected self = true) (Hmode : mode self = Some serial)
    (Hconn : serial_conn self = Some conn) (Hopen : is_open conn = true)
    (Haz : line (written conn ++ [":MAZ" ++ format_signed_2f arcminutes ++ "#"])
           <> Refuses)
    (Halt : line (written conn ++ [":MAL" ++ format_signed_2f arcminutes ++ "#"])
            <> Refuses) :
  move_azimuth line num format_signed_2f self arcminutes =
    set_serial_conn self
      (Some (write conn (":MAZ" ++ format_signed_2f arcminutes ++ "#"))) /\
  move_altitude line num format_signed_2f self arcminutes =
    set_serial_conn self
      (Some (write conn (":MAL" ++ format_signed_2f arcminutes ++ "#"))).
Proof.
  unfold move_azimuth, move_altitude.
  rewrite !(send_command_serial self conn _ false Hconnected Hmode Hconn Hopen).
  split.
  - destruct (line (written conn ++ [":MAZ" ++ format_signed_2f arcminutes ++ "#"]));
      [contradiction | reflexivity | reflexivity].
  - destruct (line (written conn ++ [":MAL" ++ format_signed_2f arcminutes ++ "#"]));
      [contradiction | reflexivity | reflexivity].
Qed.

(** The stepper positions come back both or not at all. *)
Theorem az_alt_position_both_or_neither (self : MountClient) :
  snd (get_az_alt_position line self) = (None, None) \/
  exists az alt : Z, snd (get_az_alt_position line self) = (Some az, Some alt).
Proof.
  unfold get_az_alt_position.
  destruct (send_command line self ":XGAA#" true) as [self' [response | ]];
    cbn [snd]; [ | now left].
  destruct (truthy response); [ | now left].
  destruct (2 <=? List.length (split "|" response))%nat; [ | now left].
  destruct (int (nth 0 (split "|" response) EmptyString)) as [az | ]; [ | now left].
  destruct (int (nth 1 (split "|" response) EmptyString)) as [alt | ]; [ | now left].
  right. now exists az, alt.
Qed.

(** ** Letter case of directions and rates *)






(** ** Connecting and disconnecting *)

(** The link a connected client relies on: in serial mode an open port. *)
Definition link_ok (self : MountClient) : Prop :=
  _connected self = true ->
  mode self = Some indi \/
  (mode self = Some serial /\
   option_map is_open (serial_conn self) = Some true).

Variable SERIAL_AVAILABLE : bool.
Variable INDI_AVAILABLE : bool.
Variable open_serial : string -> bool.
Variable indi_server : bool.
Variable indi_device : bool.

Lemma connect_serial_result (self : MountClient) (port : string) :
  _connected self = false ->
  let '(self', ok) := _connect_serial SERIAL_AVAILABLE open_serial line self port in
  _connected self' = ok /\
  (ok = true ->
   mode self' = Some serial /\
   option_map is_open (serial_conn self') = Some true).
Proof.
  intros Hoff. unfold _connect_serial.
  destruct SERIAL_AVAILABLE; cbn [negb]; [ | split; [exact Hoff | discriminate]].
  destruct (open_serial port); cbn [negb].
  2: { cbn. split; [exact Hoff | discriminate]. }
  unfold _serial_command. cbn.
  destruct (line [":GVP#"]) as [ | | incoming]; cbn;
    try (split; [exact Hoff | discriminate]).
  destruct (truthy (read_response incoming) &&
            contains "OpenAstro" (read_response incoming)); cbn.
  - now split.
  - split; [exact Hoff | discriminate].
Qed.

(** What [connect] returns is what [connected] says afterwards, in every
    mode and whatever the hardware does. *)
Theorem connect_reports_connected (self : MountClient) (mode port : string) :
  snd (connect SERIAL_AVAILABLE INDI_AVAILABLE open_serial line
         indi_server indi_device self mode port) =
  connected (fst (connect SERIAL_AVAILABLE INDI_AVAILABLE open_serial line
                    indi_server indi_device self mode port)).
Proof.
  unfold connect, connected.
  destruct (_connected self) eqn:Hc; [cbn; congruence | ].
  destruct (String.eqb mode "indi").
  - unfold _connect_indi.
    destruct INDI_AVAILABLE; cbn; [ | congruence].
    destruct indi_server; cbn; [ | congruence].
    destruct indi_device; cbn; [reflexivity | congruence].
  - destruct (String.eqb mode "serial"); [ | cbn; congruence].
    pose proof (connect_serial_result self port Hc) as H.
    destruct (_connect_serial SERIAL_AVAILABLE open_serial line self port)
      as [self' ok].
    cbn. now destruct H as [-> _].
Qed.

(** A connected client in serial mode always holds an open port: the
    property holds of a new client and is kept by [connect], by
    [disconnect] and by every command sent. *)
Theorem link_ok_invariant (self : MountClient) (Hok : link_ok self) :
  link_ok __init__ /\
  (forall mode port,
      link_ok (fst (connect SERIAL_AVAILABLE INDI_AVAILABLE open_serial line
                      indi_server indi_device self mode port))) /\
  link_ok (disconnect self) /\
  (forall command expect_response,
      link_ok (fst (send_command line self command expect_response))).
Proof.
  split; [ | split; [ | split]].
  - unfold link_ok. cbn. discriminate.
  - intros mode port. unfold connect.
    destruct (_connected self) eqn:Hc; [exact Hok | ].
    destruct (String.eqb mode "indi").
    + unfold _connect_indi, link_ok.
      destruct INDI_AVAILABLE; cbn; [ | congruence].
      destruct indi_server; cbn; [ | congruence].
      destruct indi_device; cbn; [now left | congruence].
    + destruct (String.eqb mode "serial"); [ | cbn; unfold link_ok; congruence].
      pose proof (connect_serial_result self port Hc) as H.
      destruct (_connect_serial SERIAL_AVAILABLE open_serial line self port)
        as [self' ok].
      cbn. destruct H as [Hc' Hs]. unfold link_ok. intros Hon.
      right. apply Hs. congruence.
  - unfold link_ok, disconnect. cbn. discriminate.
  - intros command expect_response.
    pose proof (send_command_effect self command expect_response) as H.
    destruct (send_command line self command expect_response) as [self' r].
    cbn. destruct H as (Hc & Hm & _ & _ & Ho & _).
    unfold link_ok in *. rewrite Hc, Hm, Ho. exact Hok.
Qed.

(** After [disconnect] the client is not connected, has no mode and, if
    it was in serial mode, holds no port; every command sent then
    returns [None] and changes nothing. *)
Theorem disconnect_then_no_io (self : MountClient) :
  _connected (disconnect self) = false /\
  mode (disconnect self) = None /\
  serial_conn (disconnect self) =
    match mode self with
    | Some serial => None
    | _ => serial_conn self
    end /\
  forall command expect_response,
    send_command line (disconnect self) command expect_response =
    (disconnect self, None).
Proof.
  split; [reflexivity | split; [reflexivity | split]].
  - unfold disconnect. destruct (mode self) as [[ | ] | ]; try reflexivity.
    now destruct (indi_client self).
  - intros command expect_response. reflexivity.
Qed.

End MountProtocolMore.

(* ================================================================== *)
(** * Further properties of the run control and of the alignment loop *)
(* ================================================================== *)

Section ControlLoopMore.

Import PaCalculator App.
Open Scope R_scope.

(** ** Stopping and starting again *)

(** A stop request always succeeds and clears the running flag, a second
    one changes nothing more; the start request that follows is accepted
    and starts one more worker, whether or not an earlier worker has
    ended. *)
Theorem stop_then_start (g : Globals) (x : R) :
  snd (api_auto_align_stop g) = ok "Auto-align stopped" /\
  alignment_running (fst (api_auto_align_stop g)) = false /\
  api_auto_align_stop (fst (api_auto_align_stop g)) = api_auto_align_stop g /\
  api_auto_align_start (number x) (fst (api_auto_align_stop g)) =
    ({| alignment_running := true;
        alignment_thread := Some {| thread_target_accuracy := x |};
        last_pa_error := last_pa_error g;
        last_solve_result := last_solve_result g;
        started := started g ++ [{| thread_target_accuracy := x |}] |},
     ok "Auto-align started").
Proof. repeat split. Qed.

(** ** Settling *)

Definition is_sleep (a : action) : bool :=
  match a with Sleep _ => true | _ => false end.

Definition is_poll (a : action) : bool :=
  match a with MountIsAdjusting => true | _ => false end.

Definition is_capture (a : action) : bool :=
  match a with CameraCapture _ => true | _ => false end.

Definition is_move (a : action) : bool :=
  match a with
  | MountMoveAzimuth _ | MountMoveAltitude _ => true
  | _ => false
  end.

Definition count (p : action -> bool) (tr : list action) : nat :=
  List.length (filter p tr).

Lemma count_app (p : action -> bool) (a b : list action) :
  count p (a ++ b) = (count p a + count p b)%nat.
Proof. unfold count. now rewrite filter_app, length_app. Qed.

Lemma wait_for_movement_counts (adjusting : nat -> bool) (left : nat) :
  forall wait_count,
    let tr := wait_for_movement adjusting left wait_count in
    (count is_sleep tr <= left)%nat /\
    count is_poll tr = S (count is_sleep tr) /\
    count is_capture tr = 0%nat /\
    count is_move tr = 0%nat /\
    Forall (fun a => a = MountIsAdjusting \/ a = Sleep (1 / 2)) tr.
Proof.
  induction left as [ | left IH]; intros wait_count; cbn [wait_for_movement].
  - destruct (adjusting wait_count); cbn;
      repeat match goal with |- _ /\ _ => split end;
      try lia; repeat constructor; auto.
  - destruct (adjusting wait_count).
    + destruct (IH (S wait_count)) as (Hs & Hp & Hc & Hm & Hall).
      cbv zeta in *. unfold count in *. cbn.
      repeat match goal with |- _ /\ _ => split end; try lia.
      constructor; [now left | ]. constructor; [now right | exact Hall].
    + cbn.
      repeat match goal with |- _ /\ _ => split end;
        try lia; repeat constructor; auto.
Qed.

Lemma wait_for_movement_first_idle (adjusting : nat -> bool) (left : nat) :
  forall wait_count k,
    (k <= left)%nat ->
    (forall j, (j < k)%nat -> adjusting (wait_count + j)%nat = true) ->
    adjusting (wait_count + k)%nat = false ->
    count is_sleep (wait_for_movement adjusting left wait_count) = k.
Proof.
  induction left as [ | left IH]; intros wait_count k Hk Hbusy Hidle.
  - assert (k = 0)%nat by lia. subst k. rewrite Nat.add_0_r in Hidle.
    cbn. now rewrite Hidle.
  - destruct k as [ | k].
    + rewrite Nat.add_0_r in Hidle. cbn. now rewrite Hidle.
    + cbn [wait_for_movement].
      pose proof (Hbusy 0%nat ltac:(lia)) as H0. rewrite Nat.add_0_r in H0.
      rewrite H0. unfold count. cbn. f_equal.
      apply (IH (S wait_count) k); [lia | | ].
      * intros j Hj. replace (S wait_count + j)%nat with (wait_count + S j)%nat by lia.
        apply Hbusy. lia.
      * now replace (S wait_count + k)%nat with (wait_count + S k)%nat by lia.
Qed.

(** The wait for the motors is bounded: at most 30 pauses of half a
    second (one more poll than pauses) however long the mount goes on
    reporting movement, and exactly [k] pauses when the poll numbered
    [k] is the first to find it idle. *)
Theorem settling_is_bounded (adjusting : nat -> bool) (k : nat)
    (Hk : (k <= 30)%nat)
    (Hbusy : forall j, (j < k)%nat -> adjusting j = true)
    (Hidle : adjusting k = false) :
  (forall busy : nat -> bool,
      let tr := wait_for_movement busy 30 0 in
      (count is_sleep tr <= 30)%nat /\
      count is_poll tr = S (count is_sleep tr) /\
      Forall (fun a => a = MountIsAdjusting \/ a = Sleep (1 / 2)) tr) /\
  count is_sleep (wait_for_movement adjusting 30 0) = k.
Proof.
  split.
  - intros busy.
    destruct (wait_for_movement_counts busy 30 0%nat) as (Hs & Hp & _ & _ & Hall).
    repeat split; assumption.
  - apply (wait_for_movement_first_idle adjusting 30 0 k Hk); assumption.
Qed.

(** ** The passes of a run *)

Lemma wait_for_movement_no_capture (adjusting : nat -> bool) (left wait_count : nat) :
  count is_capture (wait_for_movement adjusting left wait_count) = 0%nat.
Proof. apply (wait_for_movement_counts adjusting left wait_count). Qed.

Lemma loop_body_captures (w : World) (target_accuracy : R) (st : Loop) :
  count is_capture (trace (fst (loop_body w target_accuracy st))) =
  S (count is_capture (trace st)).
Proof.
  unfold loop_body.
  repeat match goal with
         | |- context [match ?x with _ => _ end] => destruct x
         end;
    lazy beta iota zeta delta [fst trace do emit_status];
    rewrite !count_app, ?wait_for_movement_no_capture;
    unfold count; cbn [filter is_capture List.length]; lia.
Qed.

Lemma while_loop_counts (w : World) (target_accuracy : R) (max_iterations : nat)
    (budget : nat) :
  forall st,
    (iteration st <= max_iterations)%nat ->
    let st' := fst (while_loop w target_accuracy max_iterations budget st) in
    (iteration st <= iteration st' <= max_iterations)%nat /\
    (count is_capture (trace st') + iteration st =
     count is_capture (trace st) + iteration st')%nat.
Proof.
  induction budget as [ | b IH]; intros st Hst; cbn [while_loop].
  - destruct (running_at w (iteration st) && (iteration st <? max_iterations)%nat);
      cbn; lia.
  - destruct (running_at w (iteration st)); cbn [andb]; [ | cbn; lia].
    destruct (iteration st <? max_iterations)%nat eqn:E; [ | cbn; lia].
    apply Nat.ltb_lt in E.
    pose proof (loop_body_iteration w target_accuracy st) as Hit.
    pose proof (loop_body_captures w target_accuracy st) as Hcap.
    destruct (loop_body w target_accuracy st) as [st1 c]. cbn [fst] in Hit, Hcap.
    destruct c; cbn [fst]; try lia.
    specialize (IH st1 ltac:(lia)). cbv zeta in IH. lia.
Qed.

Lemma while_loop_stops_at (w : World) (target_accuracy : R) (max_iterations : nat)
    (n : nat) (Hstop : running_at w n = false) (budget : nat) :
  forall st,
    (iteration st <= n)%nat ->
    (iteration (fst (while_loop w target_accuracy max_iterations budget st)) <= n)%nat.
Proof.
  induction budget as [ | b IH]; intros st Hst; cbn [while_loop].
  - destruct (running_at w (iteration st) && (iteration st <? max_iterations)%nat);
      cbn; lia.
  - destruct (running_at w (iteration st)) eqn:Er; cbn [andb]; [ | cbn; lia].
    destruct (iteration st <? max_iterations)%nat; [ | cbn; lia].
    assert (iteration st <> n) by congruence.
    pose proof (loop_body_iteration w target_accuracy st) as Hit.
    destruct (loop_body w target_accuracy st) as [st1 c]. cbn [fst] in Hit.
    destruct c; cbn [fst]; try lia.
    apply IH. lia.
Qed.

Lemma auto_align_loop_final (w : World) (target_accuracy : R) (g g' : Globals)
    (st : Loop) :
  auto_align_loop w target_accuracy g = Some (g', st) ->
  iteration st =
    iteration (fst (while_loop w target_accuracy Config.MAX_ITERATIONS
                      Config.MAX_ITERATIONS
                      (emit_status AutoAlignStarted info
                         {| iteration := 0;
                            loop_last_pa_error := last_pa_error g;
                            loop_last_solve_result := last_solve_result g;
                            trace := [] |}))) /\
  count is_capture (trace st) =
    count is_capture
      (trace (fst (while_loop w target_accuracy Config.MAX_ITERATIONS
                     Config.MAX_ITERATIONS
                     (emit_status AutoAlignStarted info
                        {| iteration := 0;
                           loop_last_pa_error := last_pa_error g;
                           loop_last_solve_result := last_solve_result g;
                           trace := [] |})))) /\
  alignment_running g' = false /\
  alignment_thread g' = alignment_thread g /\ started g' = started g /\
  last_pa_error g' = loop_last_pa_error st /\
  last_solve_result g' = loop_last_solve_result st.
Proof.
  unfold auto_align_loop.
  destruct (while_loop _ _ _ _ _) as [st1 c]. cbn [fst].
  destruct c; [ | | discriminate];
    (destruct (Config.MAX_ITERATIONS <=? iteration st1)%nat;
     intros [= <- <-];
     unfold emit_status, do; cbn [iteration trace alignment_running
       alignment_thread started last_pa_error last_solve_result
       loop_last_pa_error loop_last_solve_result];
     rewrite ?count_app;
     repeat match goal with |- _ /\ _ => split end;
     try reflexivity; unfold count; cbn [filter is_capture List.length]; lia).
Qed.

(** A run never makes more than [MAX_ITERATIONS] passes, captures exactly
    one image per pass, and leaves the running flag cleared, the worker
    handle and the list of started workers as they were, and the last
    error and last solve it recorded in the globals. *)
Theorem run_stays_within_budget (w : World) (target_accuracy : R)
    (g g' : Globals) (st : Loop)
    (Hrun : auto_align_loop w target_accuracy g = Some (g', st)) :
  (iteration st <= Config.MAX_ITERATIONS)%nat /\
  count is_capture (trace st) = iteration st /\
  alignment_running g' = false /\
  alignment_thread g' = alignment_thread g /\ started g' = started g /\
  last_pa_error g' = loop_last_pa_error st /\
  last_solve_result g' = loop_last_solve_result st.
Proof.
  destruct (auto_align_loop_final w target_accuracy g g' st Hrun)
    as (Hi & Hc & Hrest).
  pose proof (while_loop_counts w target_accuracy Config.MAX_ITERATIONS
                Config.MAX_ITERATIONS
                (emit_status AutoAlignStarted info
                   {| iteration := 0;
                      loop_last_pa_error := last_pa_error g;
                      loop_last_solve_result := last_solve_result g;
                      trace := [] |})
                ltac:(cbn; lia)) as H.
  cbv zeta in H. rewrite <- Hi, <- Hc in H. cbn in H.
  split; [lia | split; [lia | exact Hrest]].
Qed.

(** Cancellation: once the loop test numbered [n] reads the running flag
    cleared, the run is over: no pass beyond the [n]-th is made and no
    image beyond the [n]-th is captured. *)
Theorem stop_ends_the_run (w : World) (target_accuracy : R)
    (g g' : Globals) (st : Loop) (n : nat)
    (Hstop : running_at w n = false)
    (Hrun : auto_align_loop w target_accuracy g = Some (g', st)) :
  (iteration st <= n)%nat /\ (count is_capture (trace st) <= n)%nat.
Proof.
  destruct (auto_align_loop_final w target_accuracy g g' st Hrun)
    as (Hi & Hc & _).
  pose proof (while_loop_stops_at w target_accuracy Config.MAX_ITERATIONS n Hstop
                Config.MAX_ITERATIONS
                (emit_status AutoAlignStarted info
                   {| iteration := 0;
                      loop_last_pa_error := last_pa_error g;
                      loop_last_solve_result := last_solve_result g;
                      trace := [] |})
                ltac:(cbn; lia)) as Hn.
  pose proof (while_loop_counts w target_accuracy Config.MAX_ITERATIONS
                Config.MAX_ITERATIONS
                (emit_status AutoAlignStarted info
                   {| iteration := 0;
                      loop_last_pa_error := last_pa_error g;
                      loop_last_solve_result := last_solve_result g;
                      trace := [] |})
                ltac:(cbn; lia)) as H.
  cbv zeta in H. rewrite <- Hi in Hn. rewrite <- Hi, <- Hc in H. cbn in H.
  split; lia.
Qed.

(** ** A pass that reaches the measurement *)

Lemma total_error_nonneg (e : PAError) (a b c d : R) (l : option R) :
  e = calculate_pa_error a b c d l -> 0 <= total_error e.
Proof.
  intros ->.
  change (total_error (calculate_pa_error a b c d l))
    with (sqrt (az_error (calculate_pa_error a b c d l) ^ 2 +
                alt_error (calculate_pa_error a b c d l) ^ 2) * 60).
  pose proof (sqrt_pos (az_error (calculate_pa_error a b c d l) ^ 2 +
                        alt_error (calculate_pa_error a b c d l) ^ 2)).
  lra.
Qed.

(** What every pass does up to and including the position query, when
    the image is captured and solved. *)
Definition measuring_prefix (i : nat) (filepath : string) : list action :=
  [EmitStatus (Capturing i) info;
   CameraCapture Config.DEFAULT_EXPOSURE;
   EmitStatus (Solving i) info;
   SolverSolve filepath;
   MountGetPosition].

Section MeasuredPass.

Variables (w : World) (target_accuracy : R) (st : Loop).
Variables (filepath : string) (result : SolveResult).
Variables (ra_str dec_str : option string).

Hypothesis Hcapture : capture w (S (iteration st)) = Some filepath.
Hypothesis Hfile : String.eqb filepath EmptyString = false.
Hypothesis Hsolve : solve w (S (iteration st)) filepath = Some result.
Hypothesis Hposition : get_position w (S (iteration st)) = (ra_str, dec_str).

(** When the mount's position text cannot be parsed (in particular when
    the mount returns no text), the pass records the solve, emits the
    cannot-read error, sleeps 2 seconds and goes on to the next loop test:
    no error is computed and no move is commanded. *)
Theorem unreadable_pass :
  parse_ra_string ra_str = None \/ parse_dec_string dec_str = None ->
  loop_body w target_accuracy st =
  ({| iteration := S (iteration st);
      loop_last_pa_error := loop_last_pa_error st;
      loop_last_solve_result := Some result;
      trace := trace st ++ measuring_prefix (S (iteration st)) filepath ++
               [EmitStatus CannotReadMountPosition error; Sleep 2] |},
   Continue).
Proof.
  intros Hparse. unfold loop_body.
  rewrite Hcapture. cbn [no_file]. rewrite Hfile, Hsolve, Hposition.
  assert (E : match parse_ra_string ra_str, parse_dec_string dec_str with
              | Some _, Some _ => false
              | _, _ => true
              end = true).
  { destruct Hparse as [-> | ->]; [reflexivity | ].
    now destruct (parse_ra_string ra_str). }
  destruct (parse_ra_string ra_str) as [mount_ra | ];
    [destruct (parse_dec_string dec_str) as [mount_dec | ]; [discriminate | ] | ];
    lazy beta iota zeta delta [do emit_status trace iteration
      loop_last_pa_error loop_last_solve_result measuring_prefix];
    now rewrite <- !app_assoc.
Qed.

Variables (mount_ra mount_dec : Q).

Hypothesis Hra : parse_ra_string ra_str = Some (Py.Fin mount_ra).
Hypothesis Hdec : parse_dec_string dec_str = Some (Py.Fin mount_dec).

Let pa_error : PAError :=
  calculate_pa_error (ra result) (dec result) (Q2R mount_ra) (Q2R mount_dec) None.

(** When the measured total error is below the target, the pass records
    the error, emits the progress and the success events and breaks out of
    the loop without commanding any move. *)
Theorem aligned_pass :
  total_error pa_error < target_accuracy ->
  loop_body w target_accuracy st =
  ({| iteration := S (iteration st);
      loop_last_pa_error := Some pa_error;
      loop_last_solve_result := Some result;
      trace := trace st ++ measuring_prefix (S (iteration st)) filepath ++
               [EmitStatus (ErrorIs (S (iteration st)) pa_error) info;
                EmitStatus (Aligned (total_error pa_error)) success] |},
   Break).
Proof.
  intros Hlt. unfold loop_body.
  rewrite Hcapture. cbn [no_file]. rewrite Hfile, Hsolve, Hposition, Hra, Hdec.
  cbn [to_R]. fold pa_error.
  destruct (Rlt_dec (total_error pa_error) target_accuracy) as [_ | Hn];
    [ | contradiction].
  lazy beta iota zeta delta [do emit_status trace iteration
    loop_last_pa_error loop_last_solve_result measuring_prefix].
  now rewrite <- !app_assoc.
Qed.

(** When the measured total error is not below the target, the pass
    commands an azimuth move equal to the azimuth error (the correction
    is negated twice) and then an altitude move equal to the altitude
    error, waits half a second, polls the motors, waits the settle time
    and goes on to the next loop test. *)
Theorem correcting_pass :
  target_accuracy <= total_error pa_error ->
  loop_body w target_accuracy st =
  ({| iteration := S (iteration st);
      loop_last_pa_error := Some pa_error;
      loop_last_solve_result := Some result;
      trace := trace st ++ measuring_prefix (S (iteration st)) filepath ++
               [EmitStatus (ErrorIs (S (iteration st)) pa_error) info;
                EmitStatus
                  (ApplyingCorrection (az_error pa_error) (alt_error pa_error))
                  info;
                MountMoveAzimuth (az_error pa_error);
                MountMoveAltitude (alt_error pa_error);
                Sleep (1 / 2)] ++
               wait_for_movement (is_adjusting w (S (iteration st))) 30 0 ++
               [Sleep Config.SETTLE_TIME] |},
   Continue).
Proof.
  intros Hge. unfold loop_body.
  rewrite Hcapture. cbn [no_file]. rewrite Hfile, Hsolve, Hposition, Hra, Hdec.
  cbn [to_R]. fold pa_error.
  destruct (Rlt_dec (total_error pa_error) target_accuracy) as [Hlt | _];
    [lra | ].
  unfold calculate_correction. rewrite Ropp_involutive.
  lazy beta iota zeta delta [do emit_status trace iteration
    loop_last_pa_error loop_last_solve_result measuring_prefix].
  now rewrite <- !app_assoc.
Qed.

End MeasuredPass.

(** ** A solver that never succeeds *)

Definition path_of (w : World) (i : nat) : string :=
  match capture w i with
  | Some p => p
  | None => EmptyString
  end.

(** The trace of [n] passes that all meet a failed solve, the first of
    them numbered [S from]. *)
Fixpoint failed_solves (w : World) (from n : nat) : list action :=
  match n with
  | O => []
  | S n' =>
      [EmitStatus (Capturing (S from)) info;
       CameraCapture Config.DEFAULT_EXPOSURE;
       EmitStatus (Solving (S from)) info;
       SolverSolve (path_of w (S from));
       EmitStatus PlateSolveFailed warning;
       Sleep 2] ++ failed_solves w (S from) n'
  end.

Lemma failed_solve_step (w : World) (target_accuracy : R) (st : Loop) :
  no_file (capture w (S (iteration st))) = false ->
  solve w (S (iteration st)) (path_of w (S (iteration st))) = None ->
  loop_body w target_accuracy st =
  ({| iteration := S (iteration st);
      loop_last_pa_error := loop_last_pa_error st;
      loop_last_solve_result := loop_last_solve_result st;
      trace := trace st ++
               [EmitStatus (Capturing (S (iteration st))) info;
                CameraCapture Config.DEFAULT_EXPOSURE;
                EmitStatus (Solving (S (iteration st))) info;
                SolverSolve (path_of w (S (iteration st)));
                EmitStatus PlateSolveFailed warning;
                Sleep 2] |},
   Continue).
Proof.
  intros Hfile Hsolve. unfold loop_body. rewrite Hfile.
  fold (path_of w (S (iteration st))). rewrite Hsolve.
  lazy beta iota zeta delta [do emit_status trace iteration
    loop_last_pa_error loop_last_solve_result].
  now rewrite <- !app_assoc.
Qed.

Lemma failing_solver_passes (w : World) (target_accuracy : R)
    (max_iterations : nat)
    (Hfile : forall n, no_file (capture w n) = false)
    (Hsolve : forall n p, solve w n p = None)
    (Hrun : forall n, running_at w n = true) :
  forall n st,
    (iteration st + n = max_iterations)%nat ->
    while_loop w target_accuracy max_iterations n st =
    ({| iteration := max_iterations;
        loop_last_pa_error := loop_last_pa_error st;
        loop_last_solve_result := loop_last_solve_result st;
        trace := trace st ++ failed_solves w (iteration st) n |}, Continue).
Proof.
  induction n as [ | n IH]; intros st Hn.
  - cbn [while_loop failed_solves]. rewrite Hrun.
    replace (iteration st <? max_iterations)%nat with false
      by (symmetry; apply Nat.ltb_ge; lia).
    cbn. rewrite app_nil_r, Nat.add_0_r in *. subst max_iterations.
    now destruct st.
  - cbn [while_loop]. rewrite Hrun.
    replace (iteration st <? max_iterations)%nat with true
      by (symmetry; apply Nat.ltb_lt; lia).
    cbn [andb].
    rewrite (failed_solve_step w target_accuracy st (Hfile _) (Hsolve _ _)).
    rewrite IH by (cbn; lia).
    cbn [iteration loop_last_pa_error loop_last_solve_result trace failed_solves].
    now rewrite <- app_assoc.
Qed.

(** A run whose every solve fails makes exactly [MAX_ITERATIONS] passes,
    each with one image captured and one plate-solve warning, and ends
    with the max-iterations warning; the last error and last solve in the
    globals stay as they were. *)
Theorem failing_solver_exhausts_budget (w : World) (target_accuracy : R)
    (g : Globals)
    (Hfile : forall n, no_file (capture w n) = false)
    (Hsolve : forall n p, solve w n p = None)
    (Hrun : forall n, running_at w n = true) :
  auto_align_loop w target_accuracy g =
  Some ({| alignment_running := false;
           alignment_thread := alignment_thread g;
           last_pa_error := last_pa_error g;
           last_solve_result := last_solve_result g;
           started := started g |},
        {| iteration := Config.MAX_ITERATIONS;
           loop_last_pa_error := last_pa_error g;
           loop_last_solve_result := last_solve_result g;
           trace :=
             [EmitStatus AutoAlignStarted info] ++
             failed_solves w 0 Config.MAX_ITERATIONS ++
             [EmitStatus (MaxIterationsReached Config.MAX_ITERATIONS) warning;
              EmitStatus AutoAlignFinished info] |}).
Proof.
  unfold auto_align_loop.
  rewrite (failing_solver_passes w target_accuracy Config.MAX_ITERATIONS
             Hfile Hsolve Hrun Config.MAX_ITERATIONS) by reflexivity.
  cbn -[failed_solves Config.MAX_ITERATIONS].
  rewrite Nat.leb_refl.
  unfold emit_status, do. cbn -[failed_solves Config.MAX_ITERATIONS].
  now rewrite <- !app_assoc.
Qed.

End ControlLoopMore.

(* ================================================================== *)
(** * Instances *)
(* ================================================================== *)

Section Instances.

Import Py PaCalculator MountClient App.
Open Scope R_scope.

(** A mount on a live serial link. *)
Definition live_client : MountClient :=
  {| mode := Some serial; indi_client := false;
     serial_conn := Some {| port_name := "/dev/ttyACM0"; is_open := true;
                            written := [":GVP#"%string] |};
     telescope_name := "LX200 GPS"; _connected := true |}.

(** A sky solved at (180, 45) degrees, and a mount that reports the same
    position as [12:00:00], [+45*00:00]. *)
Definition pole_result : SolveResult :=
  {| ra := 180; dec := 45; rotation := 0; pixel_scale := 0;
     fov_width := 0; fov_height := 0; solver := "astap" |}.

Definition steady_world : World :=
  {| running_at := fun _ => true;
     capture := fun _ => Some "capture.png"%string;
     solve := fun _ _ => Some pole_result;
     get_position := fun _ => (Some "12:00:00"%string, Some "+45*00:00"%string);
     is_adjusting := fun _ _ => false |}.

(** The same sky with a mount that returns nothing. *)
Definition silent_mount_world : World :=
  {| running_at := fun _ => true;
     capture := fun _ => Some "capture.png"%string;
     solve := fun _ _ => Some pole_result;
     get_position := fun _ => (None, None);
     is_adjusting := fun _ _ => false |}.

(** A solver that never succeeds; a camera that never delivers, with a
    stop request seen at the third loop test. *)
Definition no_solve_world : World :=
  {| running_at := fun _ => true;
     capture := fun _ => Some "capture.png"%string;
     solve := fun _ _ => None;
     get_position := fun _ => (None, None);
     is_adjusting := fun _ _ => false |}.

Definition no_camera_world : World :=
  {| running_at := fun _ => true;
     capture := fun _ => None;
     solve := fun _ _ => None;
     get_position := fun _ => (None, None);
     is_adjusting := fun _ _ => false |}.

Definition stopped_world : World :=
  {| running_at := fun n => (n <? 2)%nat;
     capture := fun _ => None;
     solve := fun _ _ => None;
     get_position := fun _ => (None, None);
     is_adjusting := fun _ _ => false |}.

Definition idle_globals : Globals :=
  {| alignment_running := true; alignment_thread := None;
     last_pa_error := None; last_solve_result := None; started := [] |}.

Definition fresh_loop : Loop :=
  {| iteration := 0; loop_last_pa_error := None;
     loop_last_solve_result := None; trace := [] |}.

Lemma steady_ra : parse_ra_string (Some "12:00:00"%string) =
                  Some (Py.Fin (38880000 # 216000)).
Proof. vm_compute. reflexivity. Qed.

Lemma steady_dec : parse_dec_string (Some "+45*00:00"%string) =
                   Some (Py.Fin (9720000 # 216000)).
Proof. vm_compute. reflexivity. Qed.

Lemma steady_error_zero :
  total_error (calculate_pa_error 180 45 (Q2R (38880000 # 216000))
                 (Q2R (9720000 # 216000)) None) = 0.
Proof.
  assert (E1 : Q2R (38880000 # 216000) = 180) by (unfold Q2R; cbn; lra).
  assert (E2 : Q2R (9720000 # 216000) = 45) by (unfold Q2R; cbn; lra).
  rewrite E1, E2.
  change (total_error (calculate_pa_error 180 45 180 45 None))
    with (sqrt (az_error (calculate_pa_error 180 45 180 45 None) ^ 2 +
                alt_error (calculate_pa_error 180 45 180 45 None) ^ 2) * 60).
  rewrite az_error_eq, alt_error_eq, wrapped_delta_ra_same.
  unfold degrees, Rdiv. rewrite !Rmult_0_l.
  replace (0 ^ 2 + ((45 - 45) * 60) ^ 2) with 0 by ring.
  rewrite sqrt_0. lra.
Qed.

End Instances.

Lemma estimate_iterations_least_witness :
  PaCalculator.estimate_iterations 100 (Some 60%R) = 1%nat.
Proof.
  destruct (estimate_iterations_least 100 60) as (_ & Habove & Hbelow & Hzero).
  remember (PaCalculator.estimate_iterations 100 (Some 60%R)) as n eqn:En.
  clear En. destruct n as [ | [ | n]].
  - destruct Hzero as [Hz _]. specialize (Hz eq_refl). lra.
  - reflexivity.
  - specialize (Habove 1%nat ltac:(lia)). cbn in Habove. lra.
Defined.

Lemma response_framing_witness :
  MountClient.read_response "+45*00:00#junk" = "+45*00:00"%string.
Proof.
  apply (response_framing "+45*00:00" "junk"); reflexivity.
Defined.

Lemma get_position_sends_GR_then_GD_witness :
  snd (MountClient.get_position (fun _ => MountClient.Sends "12:00:00#")
         live_client) =
  (Some "12:00:00"%string, Some "12:00:00"%string).
Proof.
  rewrite (get_position_sends_GR_then_GD
             (fun _ => MountClient.Sends "12:00:00#") live_client
             {| MountClient.port_name := "/dev/ttyACM0";
                MountClient.is_open := true;
                MountClient.written := [":GVP#"%string] |}
             "12:00:00#" "12:00:00#"
             eq_refl eq_refl eq_refl eq_refl eq_refl eq_refl).
  reflexivity.
Defined.

Lemma move_writes_framed_command_witness :
  option_map MountClient.written
    (MountClient.serial_conn
       (MountClient.move_azimuth (fun _ => MountClient.Breaks) Z
          (fun _ => "+5.00"%string) live_client 5%Z)) =
  Some [":GVP#"%string; ":MAZ+5.00#"%string].
Proof.
  destruct (move_writes_framed_command (fun _ => MountClient.Breaks) Z
              (fun _ => "+5.00"%string) live_client
              {| MountClient.port_name := "/dev/ttyACM0";
                 MountClient.is_open := true;
                 MountClient.written := [":GVP#"%string] |}
              5%Z eq_refl eq_refl eq_refl eq_refl
              ltac:(discriminate) ltac:(discriminate)) as [Haz _].
  rewrite Haz. reflexivity.
Defined.

Lemma link_ok_invariant_witness :
  link_ok
    (fst (MountClient.connect true false (fun _ => true)
            (fun _ => MountClient.Sends "OpenAstroTracker#") false false
            MountClient.__init__ "serial" "/dev/ttyACM0")).
Proof.
  apply (link_ok_invariant (fun _ => MountClient.Sends "OpenAstroTracker#")
           true false (fun _ => true) false false MountClient.__init__).
  unfold link_ok. cbn. discriminate.
Defined.

Lemma settling_is_bounded_witness :
  count is_sleep (App.wait_for_movement (fun n => (n <? 3)%nat) 30 0) = 3%nat.
Proof.
  apply (settling_is_bounded (fun n => (n <? 3)%nat) 3).
  - lia.
  - intros j Hj. now apply Nat.ltb_lt.
  - reflexivity.
Defined.

Lemma run_stays_within_budget_witness :
  match App.auto_align_loop no_camera_world 60 idle_globals with
  | Some (g', st) =>
      (App.iteration st <= Config.MAX_ITERATIONS)%nat /\
      count is_capture (App.trace st) = App.iteration st
  | None => False
  end.
Proof.
  destruct (App.auto_align_loop no_camera_world 60 idle_globals)
    as [[g' st] | ] eqn:E.
  - destruct (run_stays_within_budget _ _ _ _ _ E) as (H1 & H2 & _).
    now split.
  - vm_compute in E. discriminate.
Defined.

Lemma stop_ends_the_run_witness :
  match App.auto_align_loop stopped_world 60 idle_globals with
  | Some (g', st) =>
      (App.iteration st <= 2)%nat /\ (count is_capture (App.trace st) <= 2)%nat
  | None => False
  end.
Proof.
  destruct (App.auto_align_loop stopped_world 60 idle_globals)
    as [[g' st] | ] eqn:E.
  - exact (stop_ends_the_run stopped_world 60 idle_globals g' st 2 eq_refl E).
  - vm_compute in E. discriminate.
Defined.

Lemma unreadable_pass_witness :
  snd (App.loop_body silent_mount_world 60 fresh_loop) = App.Continue.
Proof.
  rewrite (unreadable_pass silent_mount_world 60 fresh_loop "capture.png"
             pole_result None None eq_refl eq_refl eq_refl eq_refl
             (or_introl eq_refl)).
  reflexivity.
Defined.

Lemma aligned_pass_witness :
  snd (App.loop_body steady_world 60 fresh_loop) = App.Break.
Proof.
  rewrite (aligned_pass steady_world 60 fresh_loop "capture.png" pole_result
             (Some "12:00:00"%string) (Some "+45*00:00"%string)
             eq_refl eq_refl eq_refl eq_refl
             (38880000 # 216000) (9720000 # 216000) steady_ra steady_dec).
  - reflexivity.
  - cbn [App.ra App.dec pole_result]. rewrite steady_error_zero. lra.
Defined.

Lemma correcting_pass_witness :
  snd (App.loop_body steady_world 0 fresh_loop) = App.Continue.
Proof.
  rewrite (correcting_pass steady_world 0 fresh_loop "capture.png" pole_result
             (Some "12:00:00"%string) (Some "+45*00:00"%string)
             eq_refl eq_refl eq_refl eq_refl
             (38880000 # 216000) (9720000 # 216000) steady_ra steady_dec).
  - reflexivity.
  - cbn [App.ra App.dec pole_result]. rewrite steady_error_zero. lra.
Defined.

Lemma failing_solver_exhausts_budget_witness :
  option_map (fun r => App.iteration (snd r))
    (App.auto_align_loop no_solve_world 60 idle_globals) =
  Some Config.MAX_ITERATIONS.
Proof.
  rewrite (failing_solver_exhausts_budget no_solve_world 60 idle_globals
             (fun _ => eq_refl) (fun _ _ => eq_refl) (fun _ => eq_refl)).
  reflexivity.
Defined.

Lemma failing_camera_exhausts_budget_witness :
  option_map (fun r => App.iteration (snd r))
    (App.auto_align_loop no_camera_world 60 idle_globals) =
  Some Config.MAX_ITERATIONS.
Proof.
  rewrite (failing_camera_exhausts_budget no_camera_world 60 idle_globals
             (fun _ => eq_refl) (fun _ => eq_refl)).
  reflexivity.
Defined.
